(** * xpb-behaviour: the navigation controller of [navigate.py]

    A shallow embedding of [mirror_angle] and of the [Navigator] class
    ([set_target], [update], [update_sail], [run]) together with the
    properties its specification states about them.

    Numbers.  The program computes with Python floats.  They are embedded
    as exact rationals ([Q]): every comparison, sum and product below is the
    one the source writes, evaluated without rounding, and without the
    special values (nan, inf) of the float format.

    The boat.  [boatdclient] (the [Boat], [Bearing] and [Point] classes) is a
    separate library.  Its part is kept to what [navigate.py] calls, in
    [Module Boatd] below. *)

From Stdlib Require Import QArith Qabs Qround Qminmax Lqa ZArith Bool List Lia.
Import ListNotations.
Local Open Scope Q_scope.

(** ** Comparisons of numbers as the program's tests *)

Definition Qltb (x y : Q) : bool := negb (Qle_bool y x).
Definition Qleb (x y : Q) : bool := Qle_bool x y.

(** Python's [x % m] on floats, for a positive [m]: the remainder has the
    sign of the divisor. *)
Definition fmod (x m : Q) : Q := x - m * inject_Z (Qfloor (x / m)).

(** ** The boat interface *)

Module Boatd.

(** Modelled from the spec: [boatdclient.Bearing].  The class is not part
    of this repository; the specification's data model gives it as a value
    on a circle of 360 units whose angle-producing operations normalize,
    with a [delta] that is the signed shortest rotation.  A bearing is
    embedded as the number [float(b)], which the constructor brings into
    [0, 360). *)
Definition Bearing (degrees : Q) : Q := fmod degrees 360.

(** [a + b] and [a - b] on bearings build a new [Bearing]. *)
Definition add (a b : Q) : Q := Bearing (a + b).
Definition sub (a b : Q) : Q := Bearing (a - b).

(** Modelled from the spec: [a.delta(b)], the signed shortest rotation
    from [a] to [b]. *)
Definition delta (self other : Q) : Q :=
  let difference := other - self in
  if Qltb 180 difference then difference - 360
  else if Qltb difference (-180) then difference + 360
  else difference.

(** [boatdclient.Point]: a latitude and a longitude. *)
Record Point : Type := mkPoint { lat : Q; long : Q }.

(** What one tick reads from [boatdclient.Boat].  [bearing_to] and
    [cross_track_distance] stand for [boat.position.bearing_to] and
    [boat.position.cross_track_distance]: the position is read inside
    them.  [now] is the value of [time.time()]. *)
Record Boat : Type := mkBoat {
  heading : Q;
  bearing_to : Point -> Q;
  cross_track_distance : Point -> Point -> Q;
  wind_direction : Q;
  wind_relative_direction : Q;
  now : Q
}.

End Boatd.
Import Boatd.

(** ** [mirror_angle] *)

Definition mirror_angle (angle : Q) : Q :=
  if Qltb 180 angle then 180 - fmod angle 180 else angle.

(** ** The controller's state *)

(** A target is a [boatdclient.Point] or a [Bearing] (its float value). *)
Inductive Target : Type :=
| TPoint (p : Point)
| TBearing (b : Q).

(** The attributes [Navigator.__init__] creates, apart from [boat]. *)
Record Navigator : Type := mkNavigator {
  enable_tacking : bool;
  enable_cross_track_minimization : bool;
  enable_emergency_maneuver : bool;
  target : option Target;
  prev_target : option Target;
  hardover_rudder_timeout : Q;
  hardover_rudder_threshold : Q;
  k_p : Q;
  k_i : Q;
  integrator : Q;
  integrator_max : Q;
  last_time_rudder_not_maxed : Q;
  tacking_left : option bool;
  tacking_right : option bool;
  cone_angle : Q;
  tacking_angle : Q;
  cross_track_error : Q
}.

(** [Navigator.__init__]. *)
Definition Navigator_init (tacking cross_track emergency : bool) : Navigator :=
  {| enable_tacking := tacking;
     enable_cross_track_minimization := cross_track;
     enable_emergency_maneuver := emergency;
     target := None;
     prev_target := None;
     hardover_rudder_timeout := 20;
     hardover_rudder_threshold := 40;
     k_p := 6 # 10;
     k_i := 0;
     integrator := 0;
     integrator_max := 200;
     last_time_rudder_not_maxed := 0;
     tacking_left := None;
     tacking_right := None;
     cone_angle := Bearing 15;
     tacking_angle := Bearing 45;
     cross_track_error := 0 |}.

(** Attribute assignments. *)
Definition with_target (v : option Target) (s : Navigator) : Navigator :=
  mkNavigator (enable_tacking s) (enable_cross_track_minimization s)
    (enable_emergency_maneuver s) v (prev_target s)
    (hardover_rudder_timeout s) (hardover_rudder_threshold s) (k_p s) (k_i s)
    (integrator s) (integrator_max s) (last_time_rudder_not_maxed s)
    (tacking_left s) (tacking_right s) (cone_angle s) (tacking_angle s)
    (cross_track_error s).

Definition with_prev_target (v : option Target) (s : Navigator) : Navigator :=
  mkNavigator (enable_tacking s) (enable_cross_track_minimization s)
    (enable_emergency_maneuver s) (target s) v
    (hardover_rudder_timeout s) (hardover_rudder_threshold s) (k_p s) (k_i s)
    (integrator s) (integrator_max s) (last_time_rudder_not_maxed s)
    (tacking_left s) (tacking_right s) (cone_angle s) (tacking_angle s)
    (cross_track_error s).

Definition with_integrator (v : Q) (s : Navigator) : Navigator :=
  mkNavigator (enable_tacking s) (enable_cross_track_minimization s)
    (enable_emergency_maneuver s) (target s) (prev_target s)
    (hardover_rudder_timeout s) (hardover_rudder_threshold s) (k_p s) (k_i s)
    v (integrator_max s) (last_time_rudder_not_maxed s)
    (tacking_left s) (tacking_right s) (cone_angle s) (tacking_angle s)
    (cross_track_error s).

Definition with_last_time (v : Q) (s : Navigator) : Navigator :=
  mkNavigator (enable_tacking s) (enable_cross_track_minimization s)
    (enable_emergency_maneuver s) (target s) (prev_target s)
    (hardover_rudder_timeout s) (hardover_rudder_threshold s) (k_p s) (k_i s)
    (integrator s) (integrator_max s) v
    (tacking_left s) (tacking_right s) (cone_angle s) (tacking_angle s)
    (cross_track_error s).

(** [tacking_left] and [tacking_right] are always assigned together. *)
Definition with_tacking (left right : option bool) (s : Navigator) : Navigator :=
  mkNavigator (enable_tacking s) (enable_cross_track_minimization s)
    (enable_emergency_maneuver s) (target s) (prev_target s)
    (hardover_rudder_timeout s) (hardover_rudder_threshold s) (k_p s) (k_i s)
    (integrator s) (integrator_max s) (last_time_rudder_not_maxed s)
    left right (cone_angle s) (tacking_angle s)
    (cross_track_error s).

Definition with_cross_track_error (v : Q) (s : Navigator) : Navigator :=
  mkNavigator (enable_tacking s) (enable_cross_track_minimization s)
    (enable_emergency_maneuver s) (target s) (prev_target s)
    (hardover_rudder_timeout s) (hardover_rudder_threshold s) (k_p s) (k_i s)
    (integrator s) (integrator_max s) (last_time_rudder_not_maxed s)
    (tacking_left s) (tacking_right s) (cone_angle s) (tacking_angle s)
    v.

(** ** Methods: a state and exception monad

    A method mutates [self] and either returns or raises; what it assigned
    before raising stays assigned. *)

Inductive Exn : Type :=
| NameError        (* a global name that is not bound *)
| AttributeError   (* a [Point] attribute asked of another object *)
| TypeError.       (* [None] where a number is needed *)

Definition M (A : Type) : Type := Navigator -> Navigator * (Exn + A).

Definition ret {A} (a : A) : M A := fun s => (s, inr a).
Definition raise {A} (e : Exn) : M A := fun s => (s, inl e).
Definition bind {A B} (m : M A) (k : A -> M B) : M B :=
  fun s => match m s with
           | (s', inr a) => k a s'
           | (s', inl e) => (s', inl e)
           end.
Definition get : M Navigator := fun s => (s, inr s).
Definition assign (f : Navigator -> Navigator) : M unit :=
  fun s => (f s, inr tt).

Notation "x <- m ;; k" := (bind m (fun x => k))
  (at level 61, m at next level, right associativity).
Notation "m ;;; k" := (bind m (fun _ => k))
  (at level 61, right associativity).

(** [Navigator.set_target]. *)
Definition set_target (value : Target) : M unit :=
  assign (with_target (Some value)) ;;;
  assign (with_integrator 0).

(** ** [update_sail] *)

(** The if-chain of [update_sail] on the local [relative_wind_direction]. *)
Definition sail_table (relative_wind_direction : Q) : Q :=
  let sail_angle_close_hauled := 0 in
  let sail_angle_close_reach := 10 in
  let sail_angle_beam_reach := 20 in
  let sail_angle_broad_reach := 45 in
  let sail_angle_running := 90 in
  if Qltb relative_wind_direction 180 then
    if Qltb relative_wind_direction 45 then sail_angle_close_hauled
    else if Qltb relative_wind_direction 68 then sail_angle_close_reach
    else if Qltb relative_wind_direction 90 then sail_angle_beam_reach
    else if Qltb relative_wind_direction 113 then sail_angle_broad_reach
    else sail_angle_running
  else
    if Qleb 315 relative_wind_direction then sail_angle_close_hauled
    else if Qleb 292 relative_wind_direction then sail_angle_close_reach
    else if Qleb 269 relative_wind_direction then sail_angle_beam_reach
    else if Qleb 246 relative_wind_direction then sail_angle_broad_reach
    else sail_angle_running.

(** [Navigator.update_sail]: the angle handed to [boat.set_sail]. *)
Definition update_sail (boat : Boat) : Q :=
  let relative_wind_direction := add (wind_relative_direction boat) 180 in
  sail_table relative_wind_direction.

(** ** [update] *)

(** What one completed [update] emits: the line it prints (heading wanted,
    error) and the two actuator commands. *)
Record Output : Type := mkOutput {
  out_wanted : Q;
  out_error : Q;
  out_rudder : Q;
  out_sail : Q
}.

(** Lines 82-85: the heading of the target; [None] stays [None]. *)
Definition aim (boat : Boat) (t : option Target) : option Q :=
  match t with
  | Some (TPoint p) => Some (bearing_to boat p)
  | Some (TBearing b) => Some b
  | None => None
  end.

(** Lines 87-92. *)
Definition cross_track_stage (boat : Boat) : M unit :=
  s <- get ;;
  if enable_cross_track_minimization s then
    match prev_target s, target s with
    | Some (TPoint a), Some (TPoint b) =>
        assign (with_cross_track_error (cross_track_distance boat a b * 1))
    | _, _ => assign (with_cross_track_error 0)
    end
  else ret tt.

(** A comparison with a bearing takes the float of the other side; [None]
    has none. *)
Definition number (v : option Q) : M Q :=
  match v with
  | Some q => ret q
  | None => raise TypeError
  end.

(** [boat.position.bearing_to(self.target)] on line 98 reads the
    coordinates of its argument: only a [Point] has them. *)
Definition bearing_to_target (boat : Boat) (t : option Target) : M Q :=
  match t with
  | Some (TPoint p) => ret (bearing_to boat p)
  | _ => raise AttributeError
  end.

(** The test of lines 95-97. *)
Definition in_tacking_zone (boat : Boat) (s : Navigator) (target_heading : Q)
  : bool :=
  Qltb target_heading (add (wind_direction boat) (tacking_angle s))
  && Qltb (sub (wind_direction boat) (tacking_angle s)) target_heading
  && enable_tacking s.

(** Lines 94-136: the heading handed on to the error computation. *)
Definition tacking_stage (boat : Boat) (target_heading : option Q) : M Q :=
  s <- get ;;
  target_heading <- number target_heading ;;
  let wind := wind_direction boat in
  if in_tacking_zone boat s target_heading then
    to_target <- bearing_to_target boat (target s) ;;
    let bearing_to_wind := sub to_target wind in
    (match tacking_right s, tacking_left s with
     | Some _, Some _ => ret tt
     | _, _ =>
         if Qleb bearing_to_wind 180
         then assign (with_tacking (Some false) (Some true))
         else assign (with_tacking (Some true) (Some false))
     end) ;;;
    let modulus_to_wind := mirror_angle bearing_to_wind in
    if Qleb (cone_angle s) modulus_to_wind then
      target_heading <-
        (if Qleb bearing_to_wind 180
         then assign (with_tacking (Some false) (Some true)) ;;;
              ret (add wind (tacking_angle s))
         else ret target_heading) ;;
      (if Qltb 180 bearing_to_wind
       then assign (with_tacking (Some true) (Some false)) ;;;
            ret (sub wind (tacking_angle s))
       else ret target_heading)
    else
      s' <- get ;;
      let target_heading :=
        match tacking_left s' with
        | Some true => sub wind (tacking_angle s)
        | _ => target_heading
        end in
      let target_heading :=
        match tacking_right s' with
        | Some true => add wind (tacking_angle s)
        | _ => target_heading
        end in
      ret target_heading
  else
    assign (with_tacking None None) ;;;
    ret target_heading.

(** Lines 140-152: the error and the rudder angle. *)
Definition pid_stage (boat : Boat) (target_heading : Q) : M (Q * Q) :=
  s <- get ;;
  let error := delta (heading boat) target_heading + cross_track_error s in
  assign (with_integrator (integrator s + error)) ;;;
  s <- get ;;
  (if Qltb (integrator_max s) (integrator s)
   then assign (with_integrator (integrator_max s))
   else if Qltb (integrator s) (- integrator_max s)
   then assign (with_integrator (- integrator_max s))
   else ret tt) ;;;
  s <- get ;;
  let rudder := - (k_p s * error + k_i s * integrator s) in
  let rudder := if Qltb 180 rudder then 180 else rudder in
  let rudder := if Qltb rudder (-180) then -180 else rudder in
  ret (error, rudder).

(** The branch of lines 156-160 that calls [override_rudder()]. *)
Definition hardover_expired (boat : Boat) (s : Navigator) (rudder : Q) : bool :=
  enable_emergency_maneuver s
  && negb (Qltb (Qabs rudder) (hardover_rudder_threshold s))
  && Qltb (hardover_rudder_timeout s)
          (now boat - last_time_rudder_not_maxed s).

(** Lines 156-160.  The call on line 160 is written [override_rudder()],
    without [self.]: the module binds no such global name, so evaluating
    it raises [NameError]. *)
Definition emergency_stage (boat : Boat) (rudder : Q) : M unit :=
  s <- get ;;
  if enable_emergency_maneuver s then
    if Qltb (Qabs rudder) (hardover_rudder_threshold s)
    then assign (with_last_time (now boat))
    else if Qltb (hardover_rudder_timeout s)
                 (now boat - last_time_rudder_not_maxed s)
    then raise NameError
    else ret tt
  else ret tt.

(** [Navigator.update]. *)
Definition update (boat : Boat) : M Output :=
  s <- get ;;
  let target_heading := aim boat (target s) in
  cross_track_stage boat ;;;
  target_heading <- tacking_stage boat target_heading ;;
  er <- pid_stage boat target_heading ;;
  emergency_stage boat (snd er) ;;;
  ret {| out_wanted := target_heading;
         out_error := fst er;
         out_rudder := snd er;
         out_sail := update_sail boat |}.

(** ** [run] *)

(** One turn of the loop of [run]: [new_target] is what
    [check_new_target()] returned. *)
Definition install (new_target : option Target) : M unit :=
  match new_target with
  | Some t =>
      s <- get ;;
      assign (with_prev_target (target s)) ;;;
      set_target t
  | None => ret tt
  end.

Definition loop_body (new_target : option Target) (boat : Boat) : M Output :=
  install new_target ;;; update boat.

(** [Navigator.run] over the first turns of its endless loop; an exception
    leaves the loop. *)
Fixpoint run (ticks : list (option Target * Boat)) : M (list Output) :=
  match ticks with
  | [] => ret []
  | (new_target, boat) :: rest =>
      o <- loop_body new_target boat ;;
      os <- run rest ;;
      ret (o :: os)
  end.

(** ** [override_rudder] *)

(** Line 65: the rudder angle the recovery commands;
    [boat_rudder_angle] is the reading [self.boat.rudder_angle]. *)
Definition recovery_rudder (boat_rudder_angle : Q) : Q :=
  if Qltb 0 boat_rudder_angle then -45 else 45.

(** The condition of the loop of lines 67-68 on the readings of one
    evaluation: the clock is still before [timeout], or the heading is
    less than 170 away from [initial_heading]. *)
Definition still_recovering (timeout initial_heading : Q) (boat : Boat)
  : bool :=
  Qltb (now boat) timeout
  || Qltb (Qabs (delta initial_heading (heading boat))) 170.

(** The loop of lines 67-69 over the readings of its successive
    evaluations: the number of [time.sleep(0.1)] calls before the condition
    fails, [None] while it has not failed yet. *)
Fixpoint sleeps (timeout initial_heading : Q) (checks : list Boat)
  : option nat :=
  match checks with
  | [] => None
  | boat :: rest =>
      if still_recovering timeout initial_heading boat
      then option_map S (sleeps timeout initial_heading rest)
      else Some 0%nat
  end.

(** [Navigator.override_rudder]: [start] holds the readings of lines
    62-63; the result is the angle handed to [boat.set_rudder] and the
    outcome of the loop. *)
Definition override_rudder (boat_rudder_angle : Q) (start : Boat)
                           (checks : list Boat) : Q * option nat :=
  let timeout := now start + 10 in
  let initial_heading := heading start in
  let rudder_angle := recovery_rudder boat_rudder_angle in
  (rudder_angle, sleeps timeout initial_heading checks).

(** ** Sample readings *)

(** A boat whose waypoint bearing is [to_target], whatever the waypoint. *)
Definition sample_boat (hdg to_target wind clock : Q) : Boat :=
  {| heading := hdg;
     bearing_to := fun _ => to_target;
     cross_track_distance := fun _ _ => 0;
     wind_direction := wind;
     wind_relative_direction := wind;
     now := clock |}.

Definition waypoint : Target := TPoint (mkPoint 52 (-4)).

(** ** Notions the properties are stated with *)

(** The clamp of the specification. *)
Definition clamp (lo hi x : Q) : Q := Qmax lo (Qmin hi x).

(** The integrator after the anti-windup test of lines 142-145. *)
Definition wound (s : Navigator) (error : Q) : Q :=
  let i := integrator s + error in
  if Qltb (integrator_max s) i then integrator_max s
  else if Qltb i (- integrator_max s) then - integrator_max s
  else i.

(** The rudder angle after the two tests of lines 149-152. *)
Definition limited (rudder : Q) : Q :=
  let rudder := if Qltb 180 rudder then 180 else rudder in
  if Qltb rudder (-180) then -180 else rudder.

(** The two stages before the error computation. *)
Definition front (boat : Boat) (s : Navigator) : Navigator * (Exn + Q) :=
  (cross_track_stage boat ;;; tacking_stage boat (aim boat (target s))) s.

(** The attributes no stage of [update] assigns. *)
Definition settings (s : Navigator) :=
  (enable_tacking s, enable_cross_track_minimization s,
   enable_emergency_maneuver s, target s, prev_target s,
   (hardover_rudder_timeout s, hardover_rudder_threshold s,
    k_p s, k_i s, integrator_max s, cone_angle s, tacking_angle s)).

(** The states reached from the constructor by calls of [set_target] and
    [update] and by turns of the loop of [run], in any order. *)
Inductive reachable : Navigator -> Prop :=
| reach_init (tacking cross_track emergency : bool) :
    reachable (Navigator_init tacking cross_track emergency)
| reach_set_target (s : Navigator) (value : Target) :
    reachable s -> reachable (fst (set_target value s))
| reach_install (s : Navigator) (new_target : option Target) :
    reachable s -> reachable (fst (install new_target s))
| reach_update (s : Navigator) (boat : Boat) :
    reachable s -> reachable (fst (update boat s)).

(** The constants of the constructor. *)
Definition constants (s : Navigator) :=
  (hardover_rudder_timeout s, hardover_rudder_threshold s,
   k_p s, k_i s, integrator_max s, cone_angle s, tacking_angle s).

(** At most one side is committed, and both attributes are set or unset
    together. *)
Definition sides_ok (s : Navigator) : Prop :=
  (tacking_left s = None /\ tacking_right s = None)
  \/ (tacking_left s = Some false /\ tacking_right s = Some true)
  \/ (tacking_left s = Some true /\ tacking_right s = Some false).

(** The clock of the samples below: seconds since the epoch, as
    [time.time()] counts them. *)
Definition epoch : Q := 1700000000.

(** * Properties *)

(** ** Tests and remainders *)

Lemma Qleb_true (x y : Q) : Qleb x y = true <-> x <= y.
Proof. unfold Qleb. apply Qle_bool_iff. Qed.

Lemma Qleb_false (x y : Q) : Qleb x y = false <-> y < x.
Proof.
  unfold Qleb. split; intro H.
  - apply Qnot_le_lt. intro L. apply Qle_bool_iff in L. congruence.
  - destruct (Qle_bool x y) eqn:E; [|reflexivity].
    apply Qle_bool_iff in E. lra.
Qed.

Lemma Qltb_true (x y : Q) : Qltb x y = true <-> x < y.
Proof.
  unfold Qltb. rewrite negb_true_iff. apply (Qleb_false y x).
Qed.

Lemma Qltb_false (x y : Q) : Qltb x y = false <-> y <= x.
Proof.
  unfold Qltb. rewrite negb_false_iff. apply (Qleb_true y x).
Qed.

(** Turns every boolean test in the context into the inequality it decides. *)
Ltac qtests :=
  repeat match goal with
  | H : Qltb _ _ = true |- _ => apply Qltb_true in H
  | H : Qltb _ _ = false |- _ => apply Qltb_false in H
  | H : Qleb _ _ = true |- _ => apply Qleb_true in H
  | H : Qleb _ _ = false |- _ => apply Qleb_false in H
  end.

Lemma fmod_range (x m : Q) : 0 < m -> 0 <= fmod x m /\ fmod x m < m.
Proof.
  intro Hm. unfold fmod.
  pose proof (Qfloor_le (x / m)) as Hlo.
  pose proof (Qlt_floor (x / m)) as Hhi.
  rewrite inject_Z_plus in Hhi.
  set (f := inject_Z (Qfloor (x / m))) in *.
  assert (Hx : x == m * (x / m)) by (field; lra).
  set (y := x / m) in *.
  change (inject_Z 1) with 1 in Hhi.
  split.
  - assert (m * f <= m * y) by (apply Qmult_le_l; lra). lra.
  - assert (m * y < m * (f + 1)) by (apply Qmult_lt_l; lra). lra.
Qed.

Lemma fmod_small (x m : Q) : 0 <= x -> x < m -> fmod x m == x.
Proof.
  intros H0 Hm. unfold fmod.
  assert (Hf : Qfloor (x / m) = 0%Z).
  { assert (0 <= x / m) by (apply Qle_shift_div_l; lra).
    assert (x / m < 1) by (apply Qlt_shift_div_r; lra).
    pose proof (Qfloor_le (x / m)) as Hlo.
    pose proof (Qlt_floor (x / m)) as Hhi.
    assert (A : inject_Z (Qfloor (x / m)) < inject_Z 1).
    { change (inject_Z 1) with 1. lra. }
    assert (B : inject_Z (-1) < inject_Z (Qfloor (x / m))).
    { rewrite inject_Z_plus in Hhi. change (inject_Z 1) with 1 in Hhi.
      change (inject_Z (-1)) with (-1 # 1). lra. }
    rewrite <- Zlt_Qlt in A, B. lia. }
  rewrite Hf. change (inject_Z 0) with 0. lra.
Qed.


(** ** [mirror_angle] *)

Lemma mirror_angle_low (x : Q) : x <= 180 -> mirror_angle x = x.
Proof.
  intro H. unfold mirror_angle.
  destruct (Qltb 180 x) eqn:E; [|reflexivity]. qtests. lra.
Qed.

Lemma mirror_angle_high (x : Q) :
  180 < x -> mirror_angle x = 180 - fmod x 180.
Proof.
  intro H. unfold mirror_angle.
  destruct (Qltb 180 x) eqn:E; [reflexivity|]. qtests. lra.
Qed.

(** C8, as the code has it: on [0, 360) the result of [mirror_angle] lies
    in [0, 180]; [mirror_angle 0] is 0, [mirror_angle 180] is 180 and
    [mirror_angle 270] is 90.  No input is normalized modulo 360: an
    input up to 180, a negative one included, is returned as it is, and an
    input above 180 gives 180 minus its remainder modulo 180. *)
Theorem mirror_angle_half_circle (x : Q) :
  0 <= x -> x < 360 ->
  (0 <= mirror_angle x /\ mirror_angle x <= 180)
  /\ mirror_angle 0 == 0
  /\ mirror_angle 180 == 180
  /\ mirror_angle 270 == 90
  /\ (forall y, y <= 180 -> mirror_angle y = y)
  /\ (forall y, 180 < y -> mirror_angle y = 180 - fmod y 180).
Proof.
  intros H0 H360.
  split; [|repeat split;
           try reflexivity; auto using mirror_angle_low, mirror_angle_high].
  destruct (Qlt_le_dec 180 x) as [Hhi|Hlo].
  - rewrite (mirror_angle_high x Hhi).
    destruct (fmod_range x 180) as [A B]; [lra|]. lra.
  - rewrite (mirror_angle_low x Hlo). lra.
Qed.

Lemma mirror_angle_half_circle_witness :
  (0 <= mirror_angle 200 /\ mirror_angle 200 <= 180)
  /\ mirror_angle 0 == 0
  /\ mirror_angle 180 == 180
  /\ mirror_angle 270 == 90
  /\ (forall y, y <= 180 -> mirror_angle y = y)
  /\ (forall y, 180 < y -> mirror_angle y = 180 - fmod y 180).
Proof.
  apply (mirror_angle_half_circle 200); [discriminate | reflexivity].
Defined.

(** C8 as stated fails: [mirror_angle 180] is 180, not 0, and the inputs
    -10 and 370 are not brought into [0, 360) first. *)
Lemma mirror_angle_not_normalizing :
  mirror_angle 180 == 180
  /\ ~ mirror_angle 180 == 0
  /\ mirror_angle (-10) == -10
  /\ mirror_angle (fmod (-10) 360) == 10
  /\ mirror_angle 370 == 170
  /\ mirror_angle (fmod 370 360) == 10.
Proof.
  repeat split; try reflexivity. intro H. discriminate H.
Qed.

(** ** [update_sail] *)

Lemma sail_table_values (x : Q) :
  sail_table x = 0 \/ sail_table x = 10 \/ sail_table x = 20
  \/ sail_table x = 45 \/ sail_table x = 90.
Proof.
  unfold sail_table.
  repeat match goal with
  | |- context [if ?b then _ else _] => destruct b
  end; auto 6.
Qed.

(** Solves a goal [sail_table x = v] from inequalities on [x]. *)
Ltac sail_band :=
  unfold sail_table;
  repeat match goal with
  | |- context [if ?b then _ else _] =>
      let E := fresh "E" in destruct b eqn:E; qtests; try lra
  end; try reflexivity.

Lemma sail_table_below (x : Q) :
  x < 180 ->
  (x < 45 -> sail_table x = 0)
  /\ (45 <= x -> x < 68 -> sail_table x = 10)
  /\ (68 <= x -> x < 90 -> sail_table x = 20)
  /\ (90 <= x -> x < 113 -> sail_table x = 45)
  /\ (113 <= x -> sail_table x = 90).
Proof. intro H. repeat split; intros; sail_band. Qed.

Lemma sail_table_above (x : Q) :
  180 <= x ->
  (315 <= x -> sail_table x = 0)
  /\ (292 <= x -> x < 315 -> sail_table x = 10)
  /\ (269 <= x -> x < 292 -> sail_table x = 20)
  /\ (246 <= x -> x < 269 -> sail_table x = 45)
  /\ (x < 246 -> sail_table x = 90).
Proof. intro H. repeat split; intros; sail_band. Qed.

Lemma sail_table_mirror (x : Q) :
  (0 <= x /\ x < 45) \/ (45 < x /\ x < 68) \/ (68 < x /\ x < 90)
  \/ (91 < x /\ x < 113) \/ (114 < x /\ x <= 180) ->
  sail_table (360 - x) = sail_table x.
Proof.
  intros [H|[H|[H|[H|H]]]]; destruct H as [A B]; sail_band.
Qed.

(** C7, as the code has it: [update_sail] hands [boat.set_sail] the entry
    of the table for the relative wind direction plus 180, one of 0, 10,
    20, 45 and 90.  Below 180 the table tests [<] against 45, 68, 90 and
    113; from 180 on it tests [>=] against 315, 292, 269 and 246.  So 0
    yields 0, 90 yields 45 and 250 yields 45.  Strictly inside the bands
    (0,45), (45,68), (68,90), (91,113) and (114,180) the table agrees with
    its mirror image about 180. *)
Theorem sail_table_bands (x : Q) :
  (forall boat, update_sail boat
                = sail_table (add (wind_relative_direction boat) 180))
  /\ (sail_table x = 0 \/ sail_table x = 10 \/ sail_table x = 20
      \/ sail_table x = 45 \/ sail_table x = 90)
  /\ (x < 180 ->
      (x < 45 -> sail_table x = 0)
      /\ (45 <= x -> x < 68 -> sail_table x = 10)
      /\ (68 <= x -> x < 90 -> sail_table x = 20)
      /\ (90 <= x -> x < 113 -> sail_table x = 45)
      /\ (113 <= x -> sail_table x = 90))
  /\ (180 <= x ->
      (315 <= x -> sail_table x = 0)
      /\ (292 <= x -> x < 315 -> sail_table x = 10)
      /\ (269 <= x -> x < 292 -> sail_table x = 20)
      /\ (246 <= x -> x < 269 -> sail_table x = 45)
      /\ (x < 246 -> sail_table x = 90))
  /\ sail_table 0 = 0 /\ sail_table 90 = 45 /\ sail_table 250 = 45
  /\ ((0 <= x /\ x < 45) \/ (45 < x /\ x < 68) \/ (68 < x /\ x < 90)
      \/ (91 < x /\ x < 113) \/ (114 < x /\ x <= 180) ->
      sail_table (360 - x) = sail_table x).
Proof.
  split; [reflexivity|].
  split; [apply sail_table_values|].
  split; [apply sail_table_below|].
  split; [apply sail_table_above|].
  repeat split; try reflexivity. apply sail_table_mirror.
Qed.

(** C7 as stated fails: 90 yields 45, not 20, and the table is not
    symmetric about 180 (91 and its mirror image 269 get different
    angles).  Read on the sensor's value instead of the local variable,
    a relative wind direction of 0 yields 90, not 0. *)
Lemma sail_table_not_symmetric :
  sail_table 90 = 45
  /\ sail_table 90 <> 20
  /\ sail_table 91 = 45
  /\ sail_table (360 - 91) = 20
  /\ update_sail (sample_boat 0 0 0 0) = 90.
Proof.
  repeat split; try reflexivity. intro H. discriminate H.
Qed.

(** ** [set_target] and the loop of [run] *)


(** ** What each stage of [update] leaves alone *)

(** Case analysis on every test a stage makes. *)
Ltac stage_cases :=
  repeat (cbn in *;
          match goal with
          | |- context [match ?x with _ => _ end] =>
              lazymatch x with
              | context [match _ with _ => _ end] => fail
              | _ => destruct x eqn:?
              end
          end);
  cbn in *.

Lemma cross_track_stage_effect (boat : Boat) (s : Navigator) :
  exists c, cross_track_stage boat s = (with_cross_track_error c s, inr tt)
            \/ cross_track_stage boat s = (s, inr tt).
Proof.
  unfold cross_track_stage, bind, get, assign, ret.
  destruct (enable_cross_track_minimization s).
  - destruct (prev_target s) as [[a|b]|]; destruct (target s) as [[a'|b']|];
      eexists; left; reflexivity.
  - exists 0. right. reflexivity.
Qed.

Lemma tacking_stage_effect (boat : Boat) (th : option Q) (s : Navigator) :
  exists l r v,
    tacking_stage boat th s = (with_tacking l r s, v)
    \/ tacking_stage boat th s = (s, v).
Proof.
  unfold tacking_stage, number, bearing_to_target, bind, get, assign, ret,
    raise.
  destruct s; stage_cases;
    try (do 3 eexists; left; reflexivity);
    try (do 2 exists None; eexists; right; reflexivity).
Qed.

Lemma clamp_cases (lo hi x : Q) :
  lo <= hi ->
  (hi < x -> clamp lo hi x == hi)
  /\ (x < lo -> clamp lo hi x == lo)
  /\ (lo <= x -> x <= hi -> clamp lo hi x == x).
Proof.
  intro H. unfold clamp. repeat split; intros.
  - rewrite (Q.min_l hi x) by lra. apply Q.max_r. lra.
  - rewrite (Q.min_r hi x) by lra. apply Q.max_l. lra.
  - rewrite (Q.min_r hi x) by lra. apply Q.max_r. lra.
Qed.

Lemma clamp_range (lo hi x : Q) :
  lo <= hi -> lo <= clamp lo hi x /\ clamp lo hi x <= hi.
Proof.
  intro H. destruct (clamp_cases lo hi x H) as (A & B & C).
  destruct (Qlt_le_dec hi x) as [Hx|Hx]; [rewrite (A Hx); lra|].
  destruct (Qlt_le_dec x lo) as [Hy|Hy]; [rewrite (B Hy); lra|].
  rewrite (C Hy Hx). lra.
Qed.

Lemma wound_clamp (s : Navigator) (error : Q) :
  0 <= integrator_max s ->
  wound s error
  == clamp (- integrator_max s) (integrator_max s) (integrator s + error).
Proof.
  intro H. unfold wound.
  destruct (clamp_cases (- integrator_max s) (integrator_max s)
              (integrator s + error)) as (A & B & C); [lra|].
  destruct (Qltb _ _) eqn:E1; qtests; [rewrite A; lra|].
  destruct (Qltb _ _) eqn:E2; qtests; [rewrite B; lra|].
  rewrite C; lra.
Qed.

Lemma limited_clamp (rudder : Q) : limited rudder == clamp (-180) 180 rudder.
Proof.
  unfold limited.
  destruct (clamp_cases (-180) 180 rudder) as (A & B & C); [lra|].
  destruct (Qltb 180 rudder) eqn:E1; qtests.
  - destruct (Qltb 180 (-180)) eqn:E2; qtests; [lra|]. rewrite A; lra.
  - destruct (Qltb rudder (-180)) eqn:E2; qtests; [rewrite B; lra|].
    rewrite C; lra.
Qed.

Lemma pid_stage_effect (boat : Boat) (th : Q) (s : Navigator) :
  let error := delta (heading boat) th + cross_track_error s in
  pid_stage boat th s
  = (with_integrator (wound s error) s,
     inr (error,
          limited (- (k_p s * error + k_i s * wound s error)))).
Proof.
  unfold pid_stage, wound, limited, bind, get, assign, ret.
  destruct s as [? ? ? ? ? ? ? ? ? i imax ? ? ? ? ? ?]; cbn.
  destruct (Qltb imax _); [reflexivity|].
  destruct (Qltb _ (- imax)); reflexivity.
Qed.

Lemma emergency_stage_effect (boat : Boat) (rudder : Q) (s : Navigator) :
  (hardover_expired boat s rudder = true
   /\ emergency_stage boat rudder s = (s, inl NameError))
  \/ (hardover_expired boat s rudder = false
      /\ (emergency_stage boat rudder s = (s, inr tt)
          \/ emergency_stage boat rudder s
             = (with_last_time (now boat) s, inr tt))).
Proof.
  unfold emergency_stage, hardover_expired, bind, get, assign, ret, raise.
  destruct (enable_emergency_maneuver s); cbn; [|auto].
  destruct (Qltb (Qabs rudder) (hardover_rudder_threshold s)); cbn; [auto|].
  destruct (Qltb _ _); auto.
Qed.

Lemma bind_ret {A B} (m : M A) (k : A -> M B) (s s' : Navigator) (a : A) :
  m s = (s', inr a) -> bind m k s = k a s'.
Proof. intro H. unfold bind. rewrite H. reflexivity. Qed.

Lemma bind_raise {A B} (m : M A) (k : A -> M B) (s s' : Navigator) (e : Exn) :
  m s = (s', inl e) -> bind m k s = (s', inl e).
Proof. intro H. unfold bind. rewrite H. reflexivity. Qed.

(** The stages of one call of [update], in the order they run. *)
Lemma update_stages (boat : Boat) (s : Navigator) :
  exists s1 s2 v,
    cross_track_stage boat s = (s1, inr tt)
    /\ tacking_stage boat (aim boat (target s)) s1 = (s2, v)
    /\ match v with
       | inl e => update boat s = (s2, inl e)
       | inr th =>
           let error := delta (heading boat) th + cross_track_error s2 in
           let rudder :=
             limited (- (k_p s2 * error + k_i s2 * wound s2 error)) in
           let s3 := with_integrator (wound s2 error) s2 in
           (hardover_expired boat s3 rudder = true
            /\ update boat s = (s3, inl NameError))
           \/ (hardover_expired boat s3 rudder = false
               /\ exists s4,
                   (s4 = s3 \/ s4 = with_last_time (now boat) s3)
                   /\ update boat s
                      = (s4, inr {| out_wanted := th;
                                    out_error := error;
                                    out_rudder := rudder;
                                    out_sail := update_sail boat |}))
       end.
Proof.
  destruct (cross_track_stage_effect boat s) as [c Hc].
  assert (Hct : exists s1, cross_track_stage boat s = (s1, inr tt))
    by (destruct Hc; eauto).
  destruct Hct as [s1 Hct].
  destruct (tacking_stage boat (aim boat (target s)) s1) as [s2 v] eqn:Htk.
  exists s1, s2, v. split; [exact Hct|]. split; [exact Htk|].
  unfold update.
  rewrite (bind_ret _ _ s s s) by reflexivity.
  rewrite (bind_ret _ _ s s1 tt Hct).
  destruct v as [e|th].
  - apply bind_raise. exact Htk.
  - rewrite (bind_ret _ _ s1 s2 th Htk).
    rewrite (bind_ret _ _ s2 _ _ (pid_stage_effect boat th s2)).
    cbn [fst snd].
    set (error := delta (heading boat) th + cross_track_error s2).
    set (rudder := limited _).
    set (s3 := with_integrator _ s2).
    destruct (emergency_stage_effect boat rudder s3)
      as [[He Hr]|[He [Hr|Hr]]].
    + left. split; [exact He|]. apply bind_raise. exact Hr.
    + right. split; [exact He|]. exists s3. split; [auto|].
      rewrite (bind_ret _ _ s3 s3 tt Hr). reflexivity.
    + right. split; [exact He|]. exists (with_last_time (now boat) s3).
      split; [auto|].
      rewrite (bind_ret _ _ s3 _ tt Hr). reflexivity.
Qed.

(** ** The states the program can be in *)

Lemma update_frame (boat : Boat) (s : Navigator) :
  let s' := fst (update boat s) in
  constants s' = constants s
  /\ enable_tacking s' = enable_tacking s
  /\ enable_emergency_maneuver s' = enable_emergency_maneuver s
  /\ target s' = target s
  /\ prev_target s' = prev_target s.
Proof.
  destruct (update_stages boat s) as (s1 & s2 & v & Hct & Htk & Hv).
  assert (F1 : settings s1 = settings s).
  { destruct (cross_track_stage_effect boat s) as [c [H|H]];
      rewrite H in Hct; inversion Hct; reflexivity. }
  assert (F2 : settings s2 = settings s1).
  { destruct (tacking_stage_effect boat (aim boat (target s)) s1)
      as (l & r & w & [H|H]); rewrite H in Htk; inversion Htk; reflexivity. }
  assert (F : settings (fst (update boat s)) = settings s).
  { rewrite <- F1, <- F2. destruct v as [e|th].
    - rewrite Hv. reflexivity.
    - cbv zeta in Hv. destruct Hv as [[_ H]|[_ (s4 & [E|E] & H)]];
        rewrite H; cbn [fst]; subst; reflexivity. }
  cbv zeta. unfold settings, constants in *. inversion F. repeat split.
Qed.

Lemma wound_range (s : Navigator) (error : Q) :
  0 <= integrator_max s ->
  - integrator_max s <= wound s error /\ wound s error <= integrator_max s.
Proof.
  intro H. unfold wound.
  destruct (Qltb _ _) eqn:E1; qtests; [lra|].
  destruct (Qltb _ _) eqn:E2; qtests; lra.
Qed.

Lemma update_integrator (boat : Boat) (s : Navigator) :
  0 <= integrator_max s ->
  let s' := fst (update boat s) in
  integrator s' = integrator s
  \/ (- integrator_max s <= integrator s'
      /\ integrator s' <= integrator_max s).
Proof.
  intro Hmax.
  destruct (update_stages boat s) as (s1 & s2 & v & Hct & Htk & Hv).
  assert (F1 : integrator s1 = integrator s
               /\ integrator_max s1 = integrator_max s).
  { destruct (cross_track_stage_effect boat s) as [c [H|H]];
      rewrite H in Hct; inversion Hct; split; reflexivity. }
  assert (F2 : integrator s2 = integrator s1
               /\ integrator_max s2 = integrator_max s1).
  { destruct (tacking_stage_effect boat (aim boat (target s)) s1)
      as (l & r & w & [H|H]); rewrite H in Htk; inversion Htk;
      split; reflexivity. }
  destruct F1 as [I1 M1], F2 as [I2 M2]. cbv zeta.
  destruct v as [e|th].
  - left. rewrite Hv. cbn [fst]. congruence.
  - right. cbv zeta in Hv.
    set (error := delta (heading boat) th + cross_track_error s2) in *.
    assert (W : - integrator_max s <= wound s2 error
                /\ wound s2 error <= integrator_max s).
    { rewrite <- M1, <- M2. apply wound_range. rewrite M2, M1. exact Hmax. }
    destruct Hv as [[_ H]|[_ (s4 & [E|E] & H)]]; rewrite H; cbn [fst];
      subst; exact W.
Qed.

(** What holds in every reachable state. *)
Lemma reachable_invariant (s : Navigator) :
  reachable s ->
  constants s = constants (Navigator_init true true true)
  /\ - integrator_max s <= integrator s
  /\ integrator s <= integrator_max s.
Proof.
  induction 1 as [t c e | s v _ IH | s t _ IH | s boat _ IH].
  - split; [reflexivity|]. split; discriminate.
  - destruct IH as (C & _). split; [exact C|].
    unfold constants in C. cbn in C. inversion C as [[T Hh P I Mx Ca Ta]].
    cbn. rewrite Mx. split; discriminate.
  - destruct t as [t|]; [|exact IH].
    destruct IH as (C & _). split; [exact C|].
    unfold constants in C. cbn in C. inversion C as [[T Hh P I Mx Ca Ta]].
    cbn. rewrite Mx. split; discriminate.
  - destruct IH as (C & Lo & Hi).
    destruct (update_frame boat s) as (F & _).
    assert (Mx : integrator_max s = 200).
    { unfold constants in C. cbn in C. inversion C. reflexivity. }
    assert (Mx' : integrator_max (fst (update boat s)) = integrator_max s).
    { unfold constants in F. inversion F. reflexivity. }
    split; [congruence|]. rewrite Mx'.
    destruct (update_integrator boat s) as [E|[A B]].
    + rewrite Mx. discriminate.
    + rewrite E. split; assumption.
    + split; assumption.
Qed.

(** ** The integrator *)

(** C4: in every state the program reaches from the constructor, through
    any sequence of [update] calls (completed or not), target changes and
    loop turns, and so after every call of [update], the integrator lies
    in [-integrator_max, integrator_max]. *)
Theorem integrator_bounded (s : Navigator) :
  reachable s ->
  - integrator_max s <= integrator s /\ integrator s <= integrator_max s.
Proof.
  intro H. apply reachable_invariant in H. tauto.
Qed.

Lemma integrator_bounded_witness :
  let s := fst (loop_body None (sample_boat 0 100 250 1000)
                  (fst (loop_body (Some waypoint) (sample_boat 0 170 250 990)
                          (Navigator_init true true false)))) in
  integrator s == 200
  /\ - integrator_max s <= integrator s /\ integrator s <= integrator_max s.
Proof.
  intro s. split; [vm_compute; reflexivity|].
  apply (integrator_bounded
           (fst (update (sample_boat 0 100 250 1000)
                   (fst (update (sample_boat 0 170 250 990)
                           (fst (install (Some waypoint)
                                   (Navigator_init true true false))))))));
    repeat constructor.
Defined.

Lemma constants_fields (s s' : Navigator) :
  constants s' = constants s ->
  hardover_rudder_timeout s' = hardover_rudder_timeout s
  /\ hardover_rudder_threshold s' = hardover_rudder_threshold s
  /\ k_p s' = k_p s
  /\ k_i s' = k_i s
  /\ integrator_max s' = integrator_max s
  /\ cone_angle s' = cone_angle s
  /\ tacking_angle s' = tacking_angle s.
Proof.
  unfold constants. intro H. inversion H. repeat split; assumption.
Qed.

Lemma reachable_constants (s : Navigator) :
  reachable s ->
  hardover_rudder_timeout s = 20
  /\ hardover_rudder_threshold s = 40
  /\ k_p s = 6 # 10
  /\ k_i s = 0
  /\ integrator_max s = 200
  /\ cone_angle s = Bearing 15
  /\ tacking_angle s = Bearing 45.
Proof.
  intro H. destruct (reachable_invariant s H) as (C & _).
  apply constants_fields in C. exact C.
Qed.

(** ** The heading controller *)

(** What the two stages before the error computation leave alone. *)
Lemma front_frame (boat : Boat) (th : option Q) (s s1 s2 : Navigator)
                  (v : Exn + Q) :
  cross_track_stage boat s = (s1, inr tt) ->
  tacking_stage boat th s1 = (s2, v) ->
  constants s2 = constants s
  /\ integrator s2 = integrator s
  /\ last_time_rudder_not_maxed s2 = last_time_rudder_not_maxed s
  /\ enable_emergency_maneuver s2 = enable_emergency_maneuver s.
Proof.
  intros Hct Htk.
  destruct (cross_track_stage_effect boat s) as [c [H|H]];
    rewrite H in Hct; inversion Hct; subst s1; clear Hct H;
    match type of Htk with
    | tacking_stage _ _ ?x = _ =>
        destruct (tacking_stage_effect boat th x) as (l & r & w & [H|H]);
        rewrite H in Htk; inversion Htk; repeat split
    end.
Qed.

(** They do not read the integrator. *)
Lemma front_integrator (boat : Boat) (i : Q) (s : Navigator) :
  front boat (with_integrator i s)
  = (with_integrator i (fst (front boat s)), snd (front boat s)).
Proof.
  unfold front, cross_track_stage, tacking_stage, in_tacking_zone, number,
    bearing_to_target, aim, bind, get, assign, ret, raise.
  destruct s; stage_cases; try reflexivity; congruence.
Qed.

(** A call of [update] that returns went through every stage. *)
Lemma update_returns (boat : Boat) (s s' : Navigator) (o : Output) :
  update boat s = (s', inr o) ->
  exists s2,
    front boat s = (s2, inr (out_wanted o))
    /\ constants s2 = constants s
    /\ integrator s2 = integrator s
    /\ cross_track_error s' = cross_track_error s2
    /\ out_error o
       = delta (heading boat) (out_wanted o) + cross_track_error s2
    /\ integrator s' = wound s2 (out_error o)
    /\ out_rudder o
       = limited (- (k_p s2 * out_error o + k_i s2 * integrator s'))
    /\ out_sail o = update_sail boat.
Proof.
  intro Hu.
  destruct (update_stages boat s) as (s1 & s2 & v & Hct & Htk & Hv).
  destruct (front_frame _ _ _ _ _ _ Hct Htk) as (C & I & _).
  exists s2.
  destruct v as [e|th]; [congruence|]. cbv zeta in Hv.
  destruct Hv as [[_ H]|[_ (s4 & E & H)]]; [congruence|].
  rewrite H in Hu. inversion Hu; subst s' o; clear Hu.
  cbn [out_wanted out_error out_rudder out_sail].
  split.
  { unfold front. rewrite (bind_ret _ _ s s1 tt Hct). exact Htk. }
  split; [exact C|]. split; [exact I|].
  destruct E; subst s4; repeat split.
Qed.


Lemma limited_compat (x y : Q) : x == y -> limited x == limited y.
Proof.
  intro H. rewrite !limited_clamp. unfold clamp. rewrite H. reflexivity.
Qed.



(** C10: with the gains of the constructor (k_p = 0.6, k_i = 0.0) the
    rudder command of a tick is -(0.6 * error) clamped to [-180, 180];
    started with any other integrator value, the same tick computes the
    same error and the same rudder command. *)
Theorem default_gains_ignore_integrator
    (s : Navigator) (boat : Boat) (i : Q)
    (s1 : Navigator) (o1 : Output) (s2 : Navigator) (o2 : Output) :
  k_p s == 6 # 10 ->
  k_i s == 0 ->
  update boat s = (s1, inr o1) ->
  update boat (with_integrator i s) = (s2, inr o2) ->
  out_rudder o1 == clamp (-180) 180 (- ((6 # 10) * out_error o1))
  /\ out_error o2 = out_error o1
  /\ out_rudder o2 == out_rudder o1.
Proof.
  intros Hp Hi Hu1 Hu2.
  destruct (update_returns _ _ _ _ Hu1)
    as (a & Fa & Ca & _ & _ & Ea & _ & Ra & _).
  destruct (update_returns _ _ _ _ Hu2)
    as (b & Fb & Cb & _ & _ & Eb & _ & Rb & _).
  rewrite front_integrator, Fa in Fb. cbn [fst snd] in Fb.
  inversion Fb as [[Hb Hw]]. clear Fb.
  destruct (constants_fields _ _ Ca) as (_ & _ & Pa & Ka & _).
  destruct (constants_fields _ _ Cb) as (_ & _ & Pb & Kb & _).
  cbn in Pb, Kb.
  assert (E : out_error o2 = out_error o1).
  { rewrite Ea, Eb, <- Hb, Hw. reflexivity. }
  assert (R1 : out_rudder o1 == limited (- ((6 # 10) * out_error o1))).
  { rewrite Ra. apply limited_compat. rewrite Pa, Ka, Hp, Hi. ring. }
  assert (R2 : out_rudder o2 == limited (- ((6 # 10) * out_error o1))).
  { rewrite Rb. apply limited_compat. rewrite Pb, Kb, Hp, Hi, E. ring. }
  split; [rewrite R1; apply limited_clamp|].
  split; [exact E|]. rewrite R1, R2. reflexivity.
Qed.

Lemma default_gains_ignore_integrator_witness :
  let s := fst (install (Some waypoint) (Navigator_init true true false)) in
  let boat := sample_boat 100 130 100 1000 in
  let o1 := mkOutput 145 45 (-270 # 10) 20 in
  let o2 := mkOutput 145 45 (-270 # 10) 20 in
  out_rudder o1 == clamp (-180) 180 (- ((6 # 10) * out_error o1))
  /\ out_error o2 = out_error o1
  /\ out_rudder o2 == out_rudder o1.
Proof.
  intros s boat o1 o2.
  apply (default_gains_ignore_integrator s boat (-120)
           (fst (update boat s)) o1
           (fst (update boat (with_integrator (-120) s))) o2);
    vm_compute; reflexivity.
Defined.

(** ** The emergency branch *)

(** [update] raises [NameError] exactly when it reaches the call of line
    160. *)
Lemma update_name_error (boat : Boat) (s : Navigator) :
  snd (update boat s) = inl NameError <->
  exists s2 th,
    front boat s = (s2, inr th)
    /\ let error := delta (heading boat) th + cross_track_error s2 in
       hardover_expired boat (with_integrator (wound s2 error) s2)
         (limited (- (k_p s2 * error + k_i s2 * wound s2 error))) = true.
Proof.
  destruct (update_stages boat s) as (s1 & s2 & v & Hct & Htk & Hv).
  assert (Hf : front boat s = (s2, v)).
  { unfold front. rewrite (bind_ret _ _ s s1 tt Hct). exact Htk. }
  split.
  - intro H. destruct v as [e|th].
    + exfalso. rewrite Hv in H. cbn in H. inversion H; subst e.
      revert Htk. clear.
      unfold tacking_stage, number, bearing_to_target, bind, get, assign,
        ret, raise.
      destruct s1; stage_cases; congruence.
    + exists s2, th. split; [exact Hf|]. cbv zeta in Hv |- *.
      destruct Hv as [[He _]|[_ (s4 & _ & Hu)]]; [exact He|].
      rewrite Hu in H. discriminate H.
  - intros (s2' & th & Hf' & He). rewrite Hf in Hf'.
    inversion Hf'; subst s2' v. cbv zeta in Hv, He.
    destruct Hv as [[_ Hu]|[He' _]]; [rewrite Hu; reflexivity|congruence].
Qed.

(** C6 fails on the code: [update] does not always run to completion.
    After a tick at [epoch] that leaves the rudder unsaturated, a tick 30
    seconds later with a heading error of 90 (rudder command -54) enters
    the emergency branch, whose call [override_rudder()] raises
    [NameError]; the loop of [run] ends there. *)
Theorem update_raises_name_error :
  let s0 := Navigator_init false false true in
  let calm := sample_boat 80 0 180 epoch in
  let stuck := sample_boat 0 0 180 (epoch + 30) in
  let after_calm := fst (loop_body (Some (TBearing 90)) calm s0) in
  snd (loop_body (Some (TBearing 90)) calm s0)
  = inr (mkOutput 90 10 (-60 # 10) 0)
  /\ last_time_rudder_not_maxed after_calm = epoch
  /\ snd (update stuck after_calm) = inl NameError
  /\ snd (run [(Some (TBearing 90), calm); (None, stuck)] s0)
     = inl NameError.
Proof.
  vm_compute. repeat split.
Qed.

(** In the tacking branch a target given as a bare bearing stops [update]
    as well: line 98 asks the bearing for the coordinates of a point. *)
Lemma update_raises_on_bearing_target :
  snd (loop_body (Some (TBearing 105)) (sample_boat 0 0 100 epoch)
         (Navigator_init true false false))
  = inl AttributeError.
Proof. reflexivity. Qed.

(** C5 fails on the code: the recovery is reached on the very first tick
    after the start when that tick saturates the rudder (heading error 90,
    rudder command -54), although the rudder has been hard over for no
    time at all: [last_time_rudder_not_maxed] starts at 0 and the clock
    counts from the epoch.  The tick leaves the time stamp as it was, so a
    second call one second later reaches the recovery again. *)
Theorem recovery_on_first_tick :
  let s0 := Navigator_init false false true in
  let first := sample_boat 0 0 180 epoch in
  let second := sample_boat 0 0 180 (epoch + 1) in
  let s1 := fst (loop_body (Some (TBearing 90)) first s0) in
  last_time_rudder_not_maxed s0 = 0
  /\ snd (loop_body (Some (TBearing 90)) first s0) = inl NameError
  /\ last_time_rudder_not_maxed s1 = 0
  /\ snd (update second s1) = inl NameError.
Proof.
  vm_compute. repeat split.
Qed.

(** ** The no-go cone *)

(** C1 fails on the code: with tacking enabled, wind from 0 and a target
    bearing of 355, the test of lines 95-97 compares 355 with 0 + 45 as
    numbers, finds it not below, and hands 355 on: a heading 5 degrees
    from the wind, inside the cone of 15. *)
Theorem heading_inside_cone_at_wrap :
  let s0 := Navigator_init true true true in
  let boat := sample_boat 350 355 0 epoch in
  let r := loop_body (Some (TBearing 355)) boat s0 in
  enable_tacking s0 = true
  /\ add (wind_direction boat) (tacking_angle s0) == 45
  /\ in_tacking_zone boat s0 355 = false
  /\ snd r = inr (mkOutput 355 5 (-30 # 10) 90)
  /\ Qabs (delta (wind_direction boat) 355) == 5
  /\ cone_angle s0 == 15.
Proof.
  vm_compute. repeat split.
Qed.

(** ** The tacking state machine *)

Lemma fmod_compat (x y m : Q) : x == y -> fmod x m == fmod y m.
Proof.
  intro H. unfold fmod.
  assert (E : Qfloor (x / m) = Qfloor (y / m)) by (rewrite H; reflexivity).
  rewrite E, H. reflexivity.
Qed.

Lemma add_no_wrap (a b : Q) :
  0 <= b -> b < 360 -> 0 <= a + b -> a + b < 360 ->
  add a (Bearing b) == a + b.
Proof.
  intros B0 B1 H0 H1. unfold add, Bearing.
  assert (E : fmod b 360 == b) by (apply fmod_small; assumption).
  rewrite (fmod_compat (a + fmod b 360) (a + b) 360) by (rewrite E; reflexivity).
  apply fmod_small; assumption.
Qed.

Lemma sub_no_wrap (a b : Q) :
  0 <= b -> b < 360 -> 0 <= a - b -> a - b < 360 ->
  sub a (Bearing b) == a - b.
Proof.
  intros B0 B1 H0 H1. unfold sub, Bearing.
  assert (E : fmod b 360 == b) by (apply fmod_small; assumption).
  rewrite (fmod_compat (a - fmod b 360) (a - b) 360) by (rewrite E; reflexivity).
  apply fmod_small; assumption.
Qed.

Lemma tacking_stage_sides (boat : Boat) (th : option Q) (s : Navigator) :
  sides_ok s -> sides_ok (fst (tacking_stage boat th s)).
Proof.
  unfold tacking_stage, number, bearing_to_target, bind, get, assign, ret,
    raise, sides_ok.
  destruct s; intro H; stage_cases; tauto.
Qed.

Lemma update_sides (boat : Boat) (s : Navigator) :
  sides_ok s -> sides_ok (fst (update boat s)).
Proof.
  intro H.
  destruct (update_stages boat s) as (s1 & s2 & v & Hct & Htk & Hv).
  assert (H1 : sides_ok s1).
  { destruct (cross_track_stage_effect boat s) as [c [E|E]];
      rewrite E in Hct; inversion Hct; subst; exact H. }
  assert (H2 : sides_ok s2).
  { replace s2 with (fst (tacking_stage boat (aim boat (target s)) s1))
      by (rewrite Htk; reflexivity).
    apply tacking_stage_sides. exact H1. }
  destruct v as [e|th].
  - rewrite Hv. exact H2.
  - cbv zeta in Hv. destruct Hv as [[_ E]|[_ (s4 & [E4|E4] & E)]];
      rewrite E; cbn [fst]; subst; exact H2.
Qed.

Lemma reachable_sides (s : Navigator) : reachable s -> sides_ok s.
Proof.
  induction 1 as [t c e | s v _ IH | s t _ IH | s boat _ IH].
  - left. split; reflexivity.
  - exact IH.
  - destruct t; exact IH.
  - apply update_sides. exact IH.
Qed.

(** The engaged branch on a waypoint target, as one equation. *)
Lemma tacking_stage_engaged (boat : Boat) (s : Navigator) (p : Point) :
  sides_ok s ->
  target s = Some (TPoint p) ->
  in_tacking_zone boat s (bearing_to boat p) = true ->
  let wind := wind_direction boat in
  let bearing_to_wind := sub (bearing_to boat p) wind in
  let right := Qleb bearing_to_wind 180 in
  let derive :=
    match tacking_right s with
    | None => true
    | Some _ => Qleb (cone_angle s) (mirror_angle bearing_to_wind)
    end in
  tacking_stage boat (Some (bearing_to boat p)) s
  = if derive
    then (with_tacking (Some (negb right)) (Some right) s,
          inr (if right then add wind (tacking_angle s)
               else sub wind (tacking_angle s)))
    else (s, inr (match tacking_right s with
                  | Some true => add wind (tacking_angle s)
                  | _ => sub wind (tacking_angle s)
                  end)).
Proof.
  intros Hs Hp Hz wind bearing_to_wind right derive.
  subst derive right.
  assert (X : Qltb 180 bearing_to_wind = negb (Qleb bearing_to_wind 180))
    by reflexivity.
  unfold tacking_stage, number, bearing_to_target, bind, get, ret, assign.
  rewrite Hz, Hp. fold wind bearing_to_wind. rewrite X.
  clearbody bearing_to_wind. clear X Hz.
  generalize (add wind (tacking_angle s)) (sub wind (tacking_angle s)).
  intros starboard port.
  generalize (Qleb (cone_angle s) (mirror_angle bearing_to_wind)).
  generalize (Qleb bearing_to_wind 180).
  intros right outside.
  destruct s. unfold sides_ok in Hs. cbn in Hs, Hp |- *.
  destruct Hs as [[L R]|[[L R]|[L R]]]; subst;
    destruct right, outside; reflexivity.
Qed.

(** C2, as the code has it, for a wind direction at least [tacking_angle]
    away from 0 and from 360: the tacking logic engages exactly when
    tacking is enabled and the target heading is less than [tacking_angle]
    (not [cone_angle]) away from the wind direction.  Engaged on a waypoint
    target, it derives the side from [bearing_to_wind] (right up to 180,
    left above) when no side is committed or the folded bearing is at least
    [cone_angle], and holds the committed side otherwise; the heading handed
    on is the wind direction plus [tacking_angle] on a right tack and minus
    [tacking_angle] on a left tack.  Not engaged, it clears the side and
    hands on the target heading unchanged. *)
Theorem tacking_engagement (s : Navigator) (boat : Boat) (th : Q) :
  reachable s ->
  aim boat (target s) = Some th ->
  tacking_angle s <= wind_direction boat ->
  wind_direction boat + tacking_angle s < 360 ->
  let wind := wind_direction boat in
  let bearing_to_wind := sub th wind in
  let right := Qleb bearing_to_wind 180 in
  let derive :=
    match tacking_right s with
    | None => true
    | Some _ => Qleb (cone_angle s) (mirror_angle bearing_to_wind)
    end in
  let starboard := add wind (tacking_angle s) in
  let port := sub wind (tacking_angle s) in
  let r := tacking_stage boat (aim boat (target s)) s in
  starboard == wind + tacking_angle s
  /\ port == wind - tacking_angle s
  /\ (in_tacking_zone boat s th = true <->
      enable_tacking s = true
      /\ wind - tacking_angle s < th /\ th < wind + tacking_angle s)
  /\ (in_tacking_zone boat s th = true ->
      (exists p, target s = Some (TPoint p)) ->
      r = if derive
          then (with_tacking (Some (negb right)) (Some right) s,
                inr (if right then starboard else port))
          else (s, inr (match tacking_right s with
                        | Some true => starboard
                        | _ => port
                        end)))
  /\ (in_tacking_zone boat s th = false ->
      r = (with_tacking None None s, inr th)).
Proof.
  intros Hr Haim Hlo Hhi wind bearing_to_wind right derive starboard port r.
  destruct (reachable_constants s Hr) as (_ & _ & _ & _ & _ & _ & Ht).
  pose proof (reachable_sides s Hr) as Hs.
  assert (B45 : Bearing 45 == 45) by reflexivity.
  assert (Est : starboard == wind + tacking_angle s).
  { unfold starboard. rewrite Ht in Hlo, Hhi |- *.
    rewrite add_no_wrap; unfold wind; lra. }
  assert (Epo : port == wind - tacking_angle s).
  { unfold port. rewrite Ht in Hlo, Hhi |- *.
    rewrite sub_no_wrap; unfold wind; lra. }
  split; [exact Est|]. split; [exact Epo|].
  split.
  { unfold in_tacking_zone. fold wind starboard port.
    rewrite !andb_true_iff, !Qltb_true, Est, Epo. tauto. }
  split.
  - intros Hz [p Hp]. rewrite Hp in Haim. cbn in Haim.
    injection Haim as Hb.
    revert Hz. unfold r, derive, right, starboard, port, bearing_to_wind.
    rewrite Hp. cbn [aim]. rewrite <- Hb. intro Hz.
    apply (tacking_stage_engaged boat s p Hs Hp Hz).
  - intro Hz. subst r. rewrite Haim.
    unfold tacking_stage, number, bind, get, ret, assign.
    rewrite Hz. reflexivity.
Qed.

Lemma tacking_engagement_witness :
  let s := fst (install (Some waypoint) (Navigator_init true true false)) in
  let boat := sample_boat 100 105 100 epoch in
  let r := tacking_stage boat (aim boat (target s)) s in
  add 100 (tacking_angle s) == 100 + tacking_angle s
  /\ sub 100 (tacking_angle s) == 100 - tacking_angle s
  /\ (in_tacking_zone boat s 105 = true <->
      enable_tacking s = true
      /\ 100 - tacking_angle s < 105 /\ 105 < 100 + tacking_angle s)
  /\ (in_tacking_zone boat s 105 = true ->
      (exists p, target s = Some (TPoint p)) ->
      r = (with_tacking (Some false) (Some true) s,
           inr (add 100 (tacking_angle s))))
  /\ (in_tacking_zone boat s 105 = false ->
      r = (with_tacking None None s, inr 105)).
Proof.
  intros s boat r.
  apply (tacking_engagement s boat 105).
  - apply reach_install, reach_init.
  - reflexivity.
  - vm_compute. discriminate.
  - vm_compute. reflexivity.
Defined.

(** C2 as stated fails: with the wind from 100 and a waypoint bearing 130,
    the target heading is 30 degrees from the wind, outside the cone of
    15, yet the tacking logic engages (130 lies between 100 - 45 and
    100 + 45), commits the right tack and hands on 145 instead of 130. *)
Lemma tacking_engages_outside_cone :
  let s := fst (install (Some waypoint) (Navigator_init true true false)) in
  let boat := sample_boat 100 130 100 epoch in
  cone_angle s == 15
  /\ Qabs (delta (wind_direction boat) 130) == 30
  /\ aim boat (target s) = Some 130
  /\ in_tacking_zone boat s 130 = true
  /\ snd (update boat s) = inr (mkOutput 145 45 (-270 # 10) 20)
  /\ tacking_right (fst (update boat s)) = Some true
  /\ tacking_left (fst (update boat s)) = Some false.
Proof.
  vm_compute. repeat split.
Qed.

(** With the bearings of the specification, which normalize, the wind from
    0 gives the bounds 45 and 315 to the test of lines 95-97: no heading is
    below the first and above the second, and a waypoint bearing 5 is
    handed on as it is. *)
Lemma tacking_not_engaged_at_wrap :
  let s := fst (install (Some waypoint) (Navigator_init true true false)) in
  let boat := sample_boat 350 5 0 epoch in
  add (wind_direction boat) (tacking_angle s) == 45
  /\ sub (wind_direction boat) (tacking_angle s) == 315
  /\ in_tacking_zone boat s 5 = false
  /\ snd (update boat s) = inr (mkOutput 5 15 (-90 # 10) 90).
Proof.
  vm_compute. repeat split.
Qed.

(** X9: away from the wrap the tacking logic does keep the heading out of
    the cone: for a wind direction at least [tacking_angle] away from 0 and
    from 360 and a target heading in [0, 360), every heading the tacking
    stage hands on is at least [cone_angle] away from the wind. *)
Lemma heading_outside_cone_without_wrap
    (s : Navigator) (boat : Boat) (th : Q) (s' : Navigator) (wanted : Q) :
  reachable s ->
  enable_tacking s = true ->
  aim boat (target s) = Some th ->
  0 <= th -> th < 360 ->
  tacking_angle s <= wind_direction boat ->
  wind_direction boat + tacking_angle s < 360 ->
  tacking_stage boat (aim boat (target s)) s = (s', inr wanted) ->
  cone_angle s <= Qabs (delta (wind_direction boat) wanted).
Proof.
  intros Hr Hen Haim H0 H360 Hlo Hhi Hres.
  destruct (reachable_constants s Hr) as (_ & _ & _ & _ & _ & Hc & Ht).
  pose proof (reachable_sides s Hr) as Hs.
  assert (B45 : Bearing 45 == 45) by reflexivity.
  assert (B15 : Bearing 15 == 15) by reflexivity.
  rewrite Hc.
  set (wind := wind_direction boat) in *.
  assert (Est : add wind (tacking_angle s) == wind + 45).
  { rewrite Ht in Hlo, Hhi |- *. rewrite add_no_wrap; lra. }
  assert (Epo : sub wind (tacking_angle s) == wind - 45).
  { rewrite Ht in Hlo, Hhi |- *. rewrite sub_no_wrap; lra. }
  rewrite Ht in Hlo, Hhi.
  assert (Far : forall h, h - wind <= -45 \/ 45 <= h - wind ->
                          -315 < h - wind -> h - wind < 315 ->
                          Bearing 15 <= Qabs (delta wind h)).
  { intros h Hh Ha Hb. unfold delta.
    destruct (Qltb 180 (h - wind)) eqn:E1; qtests;
      [apply Qabs_case; intros; lra|].
    destruct (Qltb (h - wind) (-180)) eqn:E2; qtests;
      apply Qabs_case; intros; lra. }
  destruct (in_tacking_zone boat s th) eqn:Hz.
  - destruct (target s) as [[p|b]|] eqn:Htg; try discriminate Haim;
      cbn in Haim; injection Haim as Hb; subst th.
    + cbn [aim] in Hres.
      rewrite (tacking_stage_engaged boat s p Hs Htg Hz) in Hres.
      cbv zeta in Hres. fold wind in Hres.
      destruct (match tacking_right s with
                | Some _ => _
                | None => true
                end);
        injection Hres as _ Hw; rewrite <- Hw;
        repeat match goal with
        | |- context [if ?c then _ else _] => destruct c
        | |- context [match ?c with _ => _ end] => destruct c
        end;
        apply Far; lra.
    + exfalso. revert Hres.
      unfold tacking_stage, number, bearing_to_target, bind, get, ret,
        raise. cbn [aim]. rewrite Hz, Htg. discriminate.
  - revert Hres. rewrite Haim.
    unfold tacking_stage, number, bind, get, ret, assign. rewrite Hz.
    intro Hres. inversion Hres as [[Hs' Hw]]. subst wanted.
    unfold in_tacking_zone in Hz. fold wind in Hz.
    rewrite Hen, andb_true_r in Hz. apply andb_false_iff in Hz.
    destruct Hz as [Hz|Hz]; qtests; apply Far; lra.
Qed.

Lemma heading_outside_cone_without_wrap_witness :
  let s := fst (install (Some waypoint) (Navigator_init true true true)) in
  let boat := sample_boat 100 105 100 epoch in
  cone_angle s
  <= Qabs (delta (wind_direction boat) (add 100 (tacking_angle s))).
Proof.
  intros s boat.
  apply (heading_outside_cone_without_wrap s boat 105
           (fst (tacking_stage boat (aim boat (target s)) s))
           (add 100 (tacking_angle s))).
  - apply reach_install, reach_init.
  - reflexivity.
  - reflexivity.
  - vm_compute. discriminate.
  - vm_compute. reflexivity.
  - vm_compute. discriminate.
  - vm_compute. reflexivity.
  - vm_compute. reflexivity.
Defined.

(** * Further properties of the code *)

(** ** One completed call of [update], stage by stage *)

Lemma update_returns_state (boat : Boat) (s s' : Navigator) (o : Output) :
  update boat s = (s', inr o) ->
  exists s2,
    front boat s = (s2, inr (out_wanted o))
    /\ out_error o
       = delta (heading boat) (out_wanted o) + cross_track_error s2
    /\ out_rudder o
       = limited (- (k_p s2 * out_error o
                     + k_i s2 * wound s2 (out_error o)))
    /\ emergency_stage boat (out_rudder o)
         (with_integrator (wound s2 (out_error o)) s2)
       = (s', inr tt).
Proof.
  intro Hu.
  destruct (update_stages boat s) as (s1 & s2 & v & Hct & Htk & _).
  exists s2. revert Hu. unfold update.
  rewrite (bind_ret _ _ s s s) by reflexivity.
  rewrite (bind_ret _ _ s s1 tt Hct).
  destruct v as [e|th].
  - rewrite (bind_raise _ _ s1 s2 e Htk). discriminate.
  - rewrite (bind_ret _ _ s1 s2 th Htk).
    rewrite (bind_ret _ _ s2 _ _ (pid_stage_effect boat th s2)).
    cbn [fst snd]. unfold bind at 1.
    destruct (emergency_stage boat _ _) as [s4 [e|[]]] eqn:He;
      [discriminate|].
    unfold ret. intro Hu. inversion Hu; subst s' o; clear Hu.
    cbn [out_wanted out_error out_rudder].
    split.
    { unfold front. rewrite (bind_ret _ _ s s1 tt Hct). exact Htk. }
    split; [reflexivity|]. split; [reflexivity|]. exact He.
Qed.

Lemma front_effect (boat : Boat) (s s2 : Navigator) (v : Exn + Q) :
  front boat s = (s2, v) ->
  settings s2 = settings s
  /\ integrator s2 = integrator s
  /\ last_time_rudder_not_maxed s2 = last_time_rudder_not_maxed s.
Proof.
  unfold front. intro H.
  destruct (cross_track_stage_effect boat s) as [c Hc].
  assert (Hct : exists s1, cross_track_stage boat s = (s1, inr tt)
                           /\ settings s1 = settings s
                           /\ integrator s1 = integrator s
                           /\ last_time_rudder_not_maxed s1
                              = last_time_rudder_not_maxed s).
  { destruct Hc as [E|E]; eexists; (split; [exact E|]); repeat split. }
  destruct Hct as (s1 & Hct & A1 & A2 & A3).
  rewrite (bind_ret _ _ s s1 tt Hct) in H.
  destruct (tacking_stage_effect boat (aim boat (target s)) s1)
    as (l & r & w & [E|E]); rewrite E in H; inversion H; subst;
    rewrite <- A1, <- A2, <- A3; repeat split.
Qed.

Lemma settings_fields (s s' : Navigator) :
  settings s' = settings s ->
  enable_tacking s' = enable_tacking s
  /\ enable_cross_track_minimization s'
     = enable_cross_track_minimization s
  /\ enable_emergency_maneuver s' = enable_emergency_maneuver s
  /\ target s' = target s
  /\ prev_target s' = prev_target s
  /\ constants s' = constants s.
Proof.
  unfold settings, constants. intro H. inversion H. repeat split; congruence.
Qed.

Lemma limited_range (x : Q) : -180 <= limited x /\ limited x <= 180.
Proof.
  unfold limited.
  destruct (Qltb 180 x) eqn:E1; qtests.
  - destruct (Qltb 180 (-180)) eqn:E2; qtests; lra.
  - destruct (Qltb x (-180)) eqn:E2; qtests; lra.
Qed.

(** ** The rudder command *)

(** X1: whatever the state, the gains and the readings, the rudder angle
    a completed [update] hands to [boat.set_rudder] lies in
    [-180, 180]. *)
Theorem rudder_within_limits (boat : Boat) (s s' : Navigator) (o : Output) :
  update boat s = (s', inr o) ->
  -180 <= out_rudder o /\ out_rudder o <= 180.
Proof.
  intro Hu.
  destruct (update_returns_state boat s s' o Hu) as (s2 & _ & _ & Hr & _).
  rewrite Hr. apply limited_range.
Qed.

Lemma rudder_within_limits_witness :
  let s := fst (install (Some waypoint)
                  (fst (install (Some waypoint)
                          (Navigator_init true true false)))) in
  let boat := mkBoat 0 (fun _ => 90) (fun _ _ => 500) 270 0 epoch in
  let o := mkOutput 90 590 (-180) 90 in
  -180 <= out_rudder o /\ out_rudder o <= 180.
Proof.
  intros s boat o.
  apply (rudder_within_limits boat s (fst (update boat s)) o).
  vm_compute. reflexivity.
Defined.

(** ** What [update] never changes *)

Lemma update_settings (boat : Boat) (s : Navigator) :
  settings (fst (update boat s)) = settings s.
Proof.
  destruct (update_stages boat s) as (s1 & s2 & v & Hct & Htk & Hv).
  assert (Hf : front boat s = (s2, v)).
  { unfold front. rewrite (bind_ret _ _ s s1 tt Hct). exact Htk. }
  destruct (front_effect boat s s2 v Hf) as (F & _).
  rewrite <- F. destruct v as [e|th].
  - rewrite Hv. reflexivity.
  - cbv zeta in Hv. destruct Hv as [[_ H]|[_ (s4 & [E|E] & H)]];
      rewrite H; cbn [fst]; subst; reflexivity.
Qed.

(** X2: [update], completed or not, changes neither the target nor the
    previous target, nor the three feature switches, nor the constants of
    the constructor (gains, integrator bound, timeout, threshold, cone and
    tacking angles). *)
Theorem update_keeps_settings (boat : Boat) (s : Navigator) :
  let s' := fst (update boat s) in
  target s' = target s
  /\ prev_target s' = prev_target s
  /\ enable_tacking s' = enable_tacking s
  /\ enable_cross_track_minimization s' = enable_cross_track_minimization s
  /\ enable_emergency_maneuver s' = enable_emergency_maneuver s
  /\ k_p s' = k_p s /\ k_i s' = k_i s
  /\ integrator_max s' = integrator_max s
  /\ hardover_rudder_timeout s' = hardover_rudder_timeout s
  /\ hardover_rudder_threshold s' = hardover_rudder_threshold s
  /\ cone_angle s' = cone_angle s
  /\ tacking_angle s' = tacking_angle s.
Proof.
  intro s'. pose proof (update_settings boat s) as F.
  apply settings_fields in F.
  destruct F as (A & B & C & D & E & F).
  apply constants_fields in F.
  destruct F as (F1 & F2 & F3 & F4 & F5 & F6 & F7).
  repeat split; assumption.
Qed.

(** ** The tack sides *)

(** X3: in every state the program reaches, [tacking_left] and
    [tacking_right] are never both [True], and one is [None] exactly when
    the other is: a committed side is either left or right. *)
Theorem tack_sides_exclusive (s : Navigator) :
  reachable s ->
  ~ (tacking_left s = Some true /\ tacking_right s = Some true)
  /\ (tacking_left s = None <-> tacking_right s = None)
  /\ (tacking_left s = Some true <-> tacking_right s = Some false)
  /\ (tacking_left s = Some false <-> tacking_right s = Some true).
Proof.
  intro H. apply reachable_sides in H. unfold sides_ok in H.
  destruct H as [[L R]|[[L R]|[L R]]]; rewrite L, R;
    repeat split; intros; try congruence.
  - intros [A B]. discriminate A.
  - intros [A B]. discriminate A.
  - intros [A B]. discriminate B.
Qed.

Lemma tack_sides_exclusive_witness :
  let s := fst (update (sample_boat 100 130 100 epoch)
                  (fst (install (Some waypoint)
                          (Navigator_init true true false)))) in
  ~ (tacking_left s = Some true /\ tacking_right s = Some true)
  /\ (tacking_left s = None <-> tacking_right s = None)
  /\ (tacking_left s = Some true <-> tacking_right s = Some false)
  /\ (tacking_left s = Some false <-> tacking_right s = Some true).
Proof.
  intro s. apply (tack_sides_exclusive s).
  apply reach_update, reach_install, reach_init.
Defined.

(** ** The cross-track term *)



(** ** When [update] completes *)



Lemma hardover_expired_enabled (boat : Boat) (s : Navigator) (rudder : Q) :
  hardover_expired boat s rudder = true ->
  enable_emergency_maneuver s = true
  /\ hardover_rudder_threshold s <= Qabs rudder
  /\ hardover_rudder_timeout s < now boat - last_time_rudder_not_maxed s.
Proof.
  unfold hardover_expired. rewrite !andb_true_iff, negb_true_iff.
  intros [[A B] C]. qtests. auto.
Qed.



(** ** The hard-over watchdog *)

(** X6: after a completed [update] with the emergency maneuver enabled,
    [last_time_rudder_not_maxed] is the clock reading of the tick when
    the rudder command is below [hardover_rudder_threshold] in magnitude;
    otherwise it is unchanged and no more than [hardover_rudder_timeout]
    behind the clock.  With the maneuver disabled it is never changed. *)
Theorem watchdog_time_stamp (boat : Boat) (s s' : Navigator) (o : Output) :
  update boat s = (s', inr o) ->
  if enable_emergency_maneuver s then
    if Qltb (Qabs (out_rudder o)) (hardover_rudder_threshold s)
    then last_time_rudder_not_maxed s' = now boat
    else last_time_rudder_not_maxed s' = last_time_rudder_not_maxed s
         /\ now boat - last_time_rudder_not_maxed s
            <= hardover_rudder_timeout s
  else last_time_rudder_not_maxed s' = last_time_rudder_not_maxed s.
Proof.
  intro Hu.
  destruct (update_returns_state boat s s' o Hu) as (s2 & Hf & _ & _ & He).
  destruct (front_effect boat s s2 _ Hf) as (F & _ & L).
  apply settings_fields in F. destruct F as (_ & _ & Fe & _ & _ & Fc).
  apply constants_fields in Fc. destruct Fc as (Ft & Fh & _).
  revert He. unfold emergency_stage, bind, get, assign, ret, raise.
  cbn [enable_emergency_maneuver hardover_rudder_threshold
       hardover_rudder_timeout last_time_rudder_not_maxed with_integrator].
  rewrite Fe, Fh, Ft, L.
  destruct (enable_emergency_maneuver s).
  - destruct (Qltb (Qabs (out_rudder o)) (hardover_rudder_threshold s)).
    + intro H. inversion H. reflexivity.
    + destruct (Qltb _ _) eqn:E; [discriminate|].
      intro H. inversion H. qtests. split; [exact L|exact E].
  - intro H. inversion H. exact L.
Qed.

Lemma watchdog_time_stamp_witness :
  let s := fst (install (Some waypoint) (Navigator_init true true true)) in
  let boat := sample_boat 90 100 250 epoch in
  let s' := fst (update boat s) in
  let o := mkOutput 100 10 (-60 # 10) 20 in
  if enable_emergency_maneuver s then
    if Qltb (Qabs (out_rudder o)) (hardover_rudder_threshold s)
    then last_time_rudder_not_maxed s' = now boat
    else last_time_rudder_not_maxed s' = last_time_rudder_not_maxed s
         /\ now boat - last_time_rudder_not_maxed s
            <= hardover_rudder_timeout s
  else last_time_rudder_not_maxed s' = last_time_rudder_not_maxed s.
Proof.
  intros s boat s' o.
  apply (watchdog_time_stamp boat s s' o).
  vm_compute. reflexivity.
Defined.

(** X7: [update] stops with [NameError] only when the emergency maneuver
    is enabled and the clock is more than [hardover_rudder_timeout] past
    [last_time_rudder_not_maxed]; the time stamp is then left as it was,
    so the next call with the rudder still hard over stops there again. *)
Theorem recovery_call_conditions (boat : Boat) (s : Navigator) :
  snd (update boat s) = inl NameError ->
  enable_emergency_maneuver s = true
  /\ hardover_rudder_timeout s
     < now boat - last_time_rudder_not_maxed s
  /\ last_time_rudder_not_maxed (fst (update boat s))
     = last_time_rudder_not_maxed s.
Proof.
  intro Hn.
  destruct (update_stages boat s) as (s1 & s2 & v & Hct & Htk & Hv).
  assert (Hf : front boat s = (s2, v)).
  { unfold front. rewrite (bind_ret _ _ s s1 tt Hct). exact Htk. }
  destruct (front_effect boat s s2 v Hf) as (F & _ & L).
  apply settings_fields in F. destruct F as (_ & _ & Fe & _ & _ & Fc).
  apply constants_fields in Fc. destruct Fc as (Ft & _).
  apply update_name_error in Hn. destruct Hn as (s2' & th & Hf' & He).
  rewrite Hf in Hf'. inversion Hf'; subst s2' v. clear Hf'.
  cbv zeta in He, Hv.
  destruct Hv as [[_ H]|[He' _]]; [|congruence].
  apply hardover_expired_enabled in He. destruct He as (A & _ & C).
  cbn in A, C. rewrite H. cbn [fst]. cbn.
  rewrite <- Fe, <- Ft, <- L. auto.
Qed.

Lemma recovery_call_conditions_witness :
  let s := fst (install (Some (TBearing 90))
                  (Navigator_init false false true)) in
  let boat := sample_boat 0 0 180 epoch in
  enable_emergency_maneuver s = true
  /\ hardover_rudder_timeout s
     < now boat - last_time_rudder_not_maxed s
  /\ last_time_rudder_not_maxed (fst (update boat s))
     = last_time_rudder_not_maxed s.
Proof.
  intros s boat. apply (recovery_call_conditions boat s). reflexivity.
Defined.

(** ** Tacking disabled *)

Lemma front_without_tacking (boat : Boat) (s s2 : Navigator) (w : Q) :
  enable_tacking s = false ->
  front boat s = (s2, inr w) ->
  aim boat (target s) = Some w
  /\ tacking_left s2 = None /\ tacking_right s2 = None.
Proof.
  intros Hd Hf.
  unfold front in Hf.
  destruct (cross_track_stage_effect boat s) as [c Hc].
  assert (Hct : exists s1, cross_track_stage boat s = (s1, inr tt)
                           /\ enable_tacking s1 = enable_tacking s).
  { destruct Hc as [E|E]; eexists; (split; [exact E|reflexivity]). }
  destruct Hct as (s1 & Hct & He).
  rewrite (bind_ret _ _ s s1 tt Hct) in Hf.
  revert Hf. unfold tacking_stage, number, in_tacking_zone, bind, get,
    assign, ret, raise.
  destruct (aim boat (target s)) as [th|]; [|discriminate].
  rewrite He, Hd, andb_false_r.
  intro Hf. inversion Hf. repeat split.
Qed.

(** X8: with tacking disabled, a completed [update] steers at the
    target's own heading, whatever the wind, and leaves no tack side
    committed. *)
Theorem update_without_tacking (boat : Boat) (s s' : Navigator) (o : Output) :
  enable_tacking s = false ->
  update boat s = (s', inr o) ->
  aim boat (target s) = Some (out_wanted o)
  /\ tacking_left s' = None /\ tacking_right s' = None.
Proof.
  intros Hd Hu.
  destruct (update_returns_state boat s s' o Hu) as (s2 & Hf & _ & _ & He).
  destruct (front_without_tacking boat s s2 _ Hd Hf) as (A & L & R).
  split; [exact A|].
  destruct (emergency_stage_effect boat (out_rudder o)
              (with_integrator (wound s2 (out_error o)) s2))
    as [[_ E]|[_ [E|E]]]; rewrite E in He; inversion He; subst s';
    cbn; auto.
Qed.

Lemma update_without_tacking_witness :
  let s := fst (install (Some (TBearing 5)) (Navigator_init false true true)) in
  let boat := sample_boat 350 0 0 epoch in
  let s' := fst (update boat s) in
  let o := mkOutput 5 15 (-90 # 10) 90 in
  aim boat (target s) = Some (out_wanted o)
  /\ tacking_left s' = None /\ tacking_right s' = None.
Proof.
  intros s boat s' o.
  apply (update_without_tacking boat s s' o); [reflexivity|].
  vm_compute. reflexivity.
Defined.

(** ** The loop of [run] *)

(** X10: running the loop over one sequence of turns and then over a
    second one from the state reached is running it over both in a row,
    an exception in the first part leaving the second unread; a loop that
    has not raised has emitted one output per turn. *)
Theorem run_in_two_parts :
  (forall ticks1 ticks2 s,
      run (ticks1 ++ ticks2) s
      = match run ticks1 s with
        | (s1, inr outputs1) =>
            match run ticks2 s1 with
            | (s2, inr outputs2) => (s2, inr (outputs1 ++ outputs2))
            | (s2, inl e) => (s2, inl e)
            end
        | (s1, inl e) => (s1, inl e)
        end)
  /\ (forall ticks s s' outputs,
        run ticks s = (s', inr outputs) ->
        length outputs = length ticks).
Proof.
  split.
  - induction ticks1 as [|[new_target boat] rest IH]; intros ticks2 s.
    + cbn. destruct (run ticks2 s) as [s2 [e|outputs2]]; reflexivity.
    + cbn [app run]. unfold bind, ret.
      destruct (loop_body new_target boat s) as [s1 [e|o]]; [reflexivity|].
      rewrite IH.
      destruct (run rest s1) as [s2 [e|outputs1]]; [reflexivity|].
      destruct (run ticks2 s2) as [s3 [e|outputs2]]; reflexivity.
  - induction ticks as [|[new_target boat] rest IH]; intros s s' outputs H.
    + inversion H. reflexivity.
    + cbn [run] in H. unfold bind, ret in H.
      destruct (loop_body new_target boat s) as [s1 [e|o]]; [discriminate|].
      destruct (run rest s1) as [s2 [e|os]] eqn:Hr; [discriminate|].
      inversion H. cbn. f_equal. exact (IH s1 s2 os Hr).
Qed.

(** X11: when the loop of [run] ends with an exception, it is the
    exception of the first turn whose [update] raises: the turns before it
    completed, the state is the one that turn left, and the turns after it
    were not run. *)
Theorem run_stops_at_first_exception
    (ticks : list (option Target * Boat)) (s s' : Navigator) (e : Exn) :
  run ticks s = (s', inl e) ->
  exists before new_target boat after s0 outputs,
    ticks = before ++ (new_target, boat) :: after
    /\ run before s = (s0, inr outputs)
    /\ loop_body new_target boat s0 = (s', inl e).
Proof.
  revert s. induction ticks as [|[new_target boat] rest IH]; intros s H.
  - discriminate H.
  - cbn [run] in H. unfold bind, ret in H.
    destruct (loop_body new_target boat s) as [s1 [e1|o]] eqn:Hl.
    + inversion H; subst s1 e1.
      exists [], new_target, boat, rest, s, []. repeat split. exact Hl.
    + destruct (run rest s1) as [s2 [e2|os]] eqn:Hr; [|discriminate].
      inversion H; subst s2 e2.
      destruct (IH s1 Hr)
        as (before & nt & b & after & s0 & outputs & Ht & Hb & Hx).
      exists ((new_target, boat) :: before), nt, b, after, s0, (o :: outputs).
      split; [rewrite Ht; reflexivity|]. split; [|exact Hx].
      cbn [run]. unfold bind, ret. rewrite Hl, Hb. reflexivity.
Qed.

Lemma run_stops_at_first_exception_witness :
  let s0 := Navigator_init false false true in
  let calm := sample_boat 80 0 180 epoch in
  let stuck := sample_boat 0 0 180 (epoch + 30) in
  let ticks := [(Some (TBearing 90), calm); (None, stuck); (None, calm)] in
  exists before new_target boat after s1 outputs,
    ticks = before ++ (new_target, boat) :: after
    /\ run before s0 = (s1, inr outputs)
    /\ loop_body new_target boat s1 = (fst (run ticks s0), inl NameError).
Proof.
  intros s0 calm stuck ticks.
  apply (run_stops_at_first_exception ticks s0 (fst (run ticks s0)) NameError).
  vm_compute. reflexivity.
Defined.

(** ** [mirror_angle] as a reflection *)

Lemma fmod_second (x m : Q) : m <= x -> x < 2 * m -> fmod x m == x - m.
Proof.
  intros H0 Hm. unfold fmod.
  assert (Hpos : 0 < m) by lra.
  assert (Hf : Qfloor (x / m) = 1%Z).
  { assert (1 <= x / m) by (apply Qle_shift_div_l; lra).
    assert (x / m < 2) by (apply Qlt_shift_div_r; lra).
    pose proof (Qfloor_le (x / m)) as Hlo.
    pose proof (Qlt_floor (x / m)) as Hhi.
    assert (A : inject_Z (Qfloor (x / m)) < inject_Z 2).
    { change (inject_Z 2) with 2. lra. }
    assert (B : inject_Z 0 < inject_Z (Qfloor (x / m))).
    { rewrite inject_Z_plus in Hhi. change (inject_Z 1) with 1 in Hhi.
      change (inject_Z 0) with 0. lra. }
    rewrite <- Zlt_Qlt in A, B. lia. }
  rewrite Hf. change (inject_Z 1) with 1. lra.
Qed.

(** X12: on the open circle (0, 360) [mirror_angle] is the reflection
    about 180: an angle above 180 is sent to 360 minus itself, and an
    angle and its mirror image 360 - x get the same result. *)
Theorem mirror_angle_reflection (x : Q) :
  0 < x -> x < 360 ->
  (180 < x -> mirror_angle x == 360 - x)
  /\ mirror_angle (360 - x) == mirror_angle x.
Proof.
  intros H0 H360.
  assert (Hi : forall y, 180 < y -> y < 360 -> mirror_angle y == 360 - y).
  { intros y A B. rewrite (mirror_angle_high y A).
    rewrite (fmod_second y 180) by lra. lra. }
  split; [intro H; apply Hi; assumption|].
  destruct (Qlt_le_dec 180 x) as [H|H].
  - rewrite (Hi x H H360). rewrite (mirror_angle_low (360 - x)) by lra.
    reflexivity.
  - rewrite (mirror_angle_low x H).
    destruct (Qlt_le_dec x 180) as [L|L].
    + rewrite (Hi (360 - x)) by lra. lra.
    + assert (E : x == 180) by lra.
      rewrite (mirror_angle_low (360 - x)) by lra. lra.
Qed.

Lemma mirror_angle_reflection_witness :
  (180 < 200 -> mirror_angle 200 == 360 - 200)
  /\ mirror_angle (360 - 200) == mirror_angle 200.
Proof.
  apply (mirror_angle_reflection 200); reflexivity.
Defined.

(** ** [override_rudder] *)

Lemma still_recovering_true (timeout initial_heading : Q) (boat : Boat) :
  still_recovering timeout initial_heading boat = true <->
  now boat < timeout
  \/ Qabs (delta initial_heading (heading boat)) < 170.
Proof.
  unfold still_recovering. rewrite orb_true_iff, !Qltb_true. tauto.
Qed.



Lemma sleeps_none (timeout initial_heading : Q) (checks : list Boat) :
  sleeps timeout initial_heading checks = None <->
  Forall (fun boat => still_recovering timeout initial_heading boat = true)
         checks.
Proof.
  induction checks as [|boat rest IH]; cbn [sleeps].
  - split; [constructor|reflexivity].
  - destruct (still_recovering timeout initial_heading boat) eqn:E.
    + destruct (sleeps timeout initial_heading rest) as [m|]; cbn; split.
      * discriminate.
      * intro F. inversion F; subst. apply IH in H2. discriminate H2.
      * intros _. constructor; [exact E|]. apply IH. reflexivity.
      * reflexivity.
    + split; [discriminate|]. intro F. inversion F; subst. congruence.
Qed.



(** X14: the loop of [override_rudder] has not ended after a sequence of
    checks exactly when each of them came before the 10 seconds were over
    or found the heading less than 170 degrees from the initial one; so
    it never ends while the boat has not turned that far, however late it
    gets. *)
Theorem override_rudder_keeps_waiting
    (boat_rudder_angle : Q) (start : Boat) (checks : list Boat) :
  (snd (override_rudder boat_rudder_angle start checks) = None <->
   Forall (fun boat =>
             now boat < now start + 10
             \/ Qabs (delta (heading start) (heading boat)) < 170)
          checks)
  /\ (Forall (fun boat =>
                Qabs (delta (heading start) (heading boat)) < 170)
             checks ->
      snd (override_rudder boat_rudder_angle start checks) = None).
Proof.
  unfold override_rudder. cbn [snd].
  assert (A : sleeps (now start + 10) (heading start) checks = None <->
              Forall (fun boat =>
                        now boat < now start + 10
                        \/ Qabs (delta (heading start) (heading boat)) < 170)
                     checks).
  { rewrite sleeps_none. split; intro F;
      (eapply Forall_impl; [|exact F]); intros b Hb;
      apply still_recovering_true; exact Hb. }
  split; [exact A|].
  intro F. apply A. eapply Forall_impl; [|exact F]. intros b Hb. right.
  exact Hb.
Qed.

(** ** The sail table, side by side *)

(** Case analysis on every test of [sail_table] in the goal, closing the
    cases whose tests contradict each other. *)
Ltac sail_cases :=
  unfold sail_table;
  repeat match goal with
  | |- context [if ?b then _ else _] =>
      lazymatch b with
      | context [if _ then _ else _] => fail
      | _ => let E := fresh "E" in destruct b eqn:E; qtests; try lra
      end
  end;
  try lra.

(** X15: on each side of 180 the sail is let out step by step as the wind
    moves aft: below 180 the sail angle does not decrease when the
    relative wind direction grows, from 180 on it does not increase. *)
Theorem sail_table_monotone (x y : Q) :
  x <= y ->
  (y < 180 -> sail_table x <= sail_table y)
  /\ (180 <= x -> sail_table y <= sail_table x).
Proof.
  intro H. split; intro Hs; sail_cases.
Qed.

Lemma sail_table_monotone_witness :
  (100 < 180 -> sail_table 50 <= sail_table 100)
  /\ (180 <= 50 -> sail_table 100 <= sail_table 50).
Proof.
  apply (sail_table_monotone 50 100). discriminate.
Defined.

(** ** The first tick on a new target *)

(** X16: when a turn of the loop installs a new target and its [update]
    completes, the integrator it leaves is the error of that tick alone,
    clamped to [-integrator_max, integrator_max]: nothing of the
    integrator before the target change is carried over. *)
Theorem integrator_after_new_target
    (s : Navigator) (new_target : Target) (boat : Boat)
    (s' : Navigator) (o : Output) :
  reachable s ->
  loop_body (Some new_target) boat s = (s', inr o) ->
  integrator s'
  == clamp (- integrator_max s) (integrator_max s) (out_error o).
Proof.
  intros Hr Hl.
  set (s0 := fst (install (Some new_target) s)).
  assert (Hu : update boat s0 = (s', inr o)) by exact Hl.
  assert (Hr0 : reachable s0) by (apply reach_install; exact Hr).
  destruct (reachable_constants s0 Hr0) as (_ & _ & _ & _ & Mx & _).
  destruct (update_returns_state boat s0 s' o Hu) as (s2 & Hf & _ & _ & He).
  destruct (front_effect boat s0 s2 _ Hf) as (F & I & _).
  apply settings_fields in F. destruct F as (_ & _ & _ & _ & _ & Fc).
  apply constants_fields in Fc. destruct Fc as (_ & _ & _ & _ & M2 & _).
  assert (Hi : integrator s' = wound s2 (out_error o)).
  { destruct (emergency_stage_effect boat (out_rudder o)
                (with_integrator (wound s2 (out_error o)) s2))
      as [[_ E]|[_ [E|E]]]; rewrite E in He; inversion He; reflexivity. }
  rewrite Hi, wound_clamp by (rewrite M2, Mx; discriminate).
  rewrite M2, I. change (integrator_max s0) with (integrator_max s).
  change (integrator s0) with 0. unfold clamp.
  assert (E : 0 + out_error o == out_error o) by ring.
  rewrite E. reflexivity.
Qed.

Lemma integrator_after_new_target_witness :
  let s := fst (loop_body (Some waypoint) (sample_boat 0 170 250 epoch)
                  (Navigator_init true true false)) in
  let boat := sample_boat 0 100 250 (epoch + 1) in
  let s' := fst (loop_body (Some waypoint) boat s) in
  let o := mkOutput 100 100 (-600 # 10) 20 in
  integrator s == 170
  /\ integrator s'
     == clamp (- integrator_max s) (integrator_max s) (out_error o).
Proof.
  intros s boat s' o. split; [vm_compute; reflexivity|].
  apply (integrator_after_new_target s waypoint boat s' o).
  - apply (reach_update
             (fst (install (Some waypoint) (Navigator_init true true false)))).
    apply reach_install, reach_init.
  - vm_compute. reflexivity.
Defined.

(** ** Small errors and the watchdog *)

(** X17: with the gains of the constructor and the emergency maneuver
    enabled, a completed tick whose error is below 200/3 degrees in
    magnitude commands less than 40 degrees of rudder and so refreshes
    [last_time_rudder_not_maxed] with the clock reading of the tick. *)
Theorem small_error_refreshes_time_stamp
    (s : Navigator) (boat : Boat) (s' : Navigator) (o : Output) :
  reachable s ->
  enable_emergency_maneuver s = true ->
  update boat s = (s', inr o) ->
  Qabs (out_error o) < 200 # 3 ->
  Qabs (out_rudder o) < 40
  /\ last_time_rudder_not_maxed s' = now boat.
Proof.
  intros Hr Hen Hu Hsmall.
  destruct (reachable_constants s Hr) as (_ & Th & P & K & _).
  destruct (update_returns_state boat s s' o Hu)
    as (s2 & Hf & _ & Hrud & He).
  destruct (front_effect boat s s2 _ Hf) as (F & _ & _).
  apply settings_fields in F. destruct F as (_ & _ & Fe & _ & _ & Fc).
  apply constants_fields in Fc. destruct Fc as (_ & Fh & Fp & Fk & _).
  assert (R : Qabs (out_rudder o) < 40).
  { rewrite Hrud, Fp, Fk, P, K.
    revert Hsmall. generalize (out_error o) (wound s2 (out_error o)).
    intros e w. apply Qabs_case; intros A B;
      unfold limited;
      repeat match goal with
      | |- context [if ?b then _ else _] =>
          lazymatch b with
          | context [if _ then _ else _] => fail
          | _ => let E := fresh "E" in destruct b eqn:E; qtests
          end
      end;
      apply Qabs_case; intros; lra. }
  split; [exact R|].
  revert He. unfold emergency_stage, bind, get, assign, ret, raise.
  cbn [enable_emergency_maneuver hardover_rudder_threshold with_integrator].
  rewrite Fe, Hen, Fh, Th.
  destruct (Qltb (Qabs (out_rudder o)) 40) eqn:E.
  - intro H. inversion H. reflexivity.
  - qtests. lra.
Qed.

Lemma small_error_refreshes_time_stamp_witness :
  let s := fst (install (Some waypoint) (Navigator_init true true true)) in
  let boat := sample_boat 90 100 250 epoch in
  let s' := fst (update boat s) in
  let o := mkOutput 100 10 (-60 # 10) 20 in
  Qabs (out_rudder o) < 40
  /\ last_time_rudder_not_maxed s' = now boat.
Proof.
  intros s boat s' o.
  apply (small_error_refreshes_time_stamp s boat s' o).
  - apply reach_install, reach_init.
  - reflexivity.
  - vm_compute. reflexivity.
  - vm_compute. reflexivity.
Defined.
